(** * ctgfun-pl: the playlist scraper ([scraper/scraper.py])

    A shallow embedding of the four components of the scraper, in the order of
    the source file: the directory crawler [crawl], the filename parser
    [parse_movie_name], the metadata lookup [tmdb_search] with its process-wide
    cache, the playlist builder [build_m3u] and the main block.

    Conventions.
    - A Python [str] is a list of characters.  Characters are the 8-bit code
      points U+0000..U+00FF; the classification tables below ([isspace],
      [isalnum], [isdecimal], [lower]) are CPython's, restricted to that range.
    - [pathlib.Path] is the POSIX flavour, with [suffix]/[stem] as in
      CPython up to 3.13.
    - Console output ([print]) and delays ([time.sleep]) are not modelled.
    - The outside world (the directory server, the metadata service, the
      environment) enters as Section variables. *)

From Stdlib Require Import Ascii String NArith Lia.
From stdpp Require Import gmap strings list fin_maps sorting.

Local Open Scope list_scope.
Local Open Scope char_scope.

(** ** Python strings *)

Module Py.

Abbreviation str := (list ascii).

(** A string literal of the source. *)
Definition L (s : string) : str := list_ascii_of_string s.

Definition code (c : ascii) : N := N_of_ascii c.

Definition between (lo hi : N) (c : ascii) : bool :=
  ((lo <=? code c) && (code c <=? hi))%N.

(** [str.isspace] on one character, also the class [\s] of [re]. *)
Definition isspace (c : ascii) : bool :=
  between 9 13 c || between 28 32 c || (code c =? 133)%N || (code c =? 160)%N.

(** [str.isdecimal] on one character (category Nd), also the class [\d]. *)
Definition isdecimal (c : ascii) : bool := between 48 57 c.

(** [str.isalnum] on one character. *)
Definition isalnum (c : ascii) : bool :=
  between 48 57 c || between 65 90 c || between 97 122 c
  || (code c =? 170)%N || (code c =? 178)%N || (code c =? 179)%N
  || (code c =? 181)%N || (code c =? 185)%N || (code c =? 186)%N
  || between 188 190 c || between 192 214 c || between 216 246 c
  || between 248 255 c.

(** The class [\w] of [re]: alphanumeric or underscore. *)
Definition isword (c : ascii) : bool := isalnum c || (code c =? 95)%N.

(** [str.lower] on one character. *)
Definition lower_char (c : ascii) : ascii :=
  if between 65 90 c || between 192 214 c || between 216 222 c
  then ascii_of_N (code c + 32) else c.

Definition lower (s : str) : str := map lower_char s.

Definition eqc (a b : ascii) : bool := (code a =? code b)%N.

Definition mem (c : ascii) (cs : str) : bool := existsb (eqc c) cs.

Fixpoint eqs (a b : str) : bool :=
  match a, b with
  | [], [] => true
  | x :: a', y :: b' => eqc x y && eqs a' b'
  | _, _ => false
  end.

(** [x in xs] for a tuple or set of strings. *)
Definition mem_str (x : str) (xs : list str) : bool := existsb (eqs x) xs.

(** [s.startswith(p)] *)
Fixpoint startswith (p s : str) : bool :=
  match p, s with
  | [], _ => true
  | x :: p', y :: s' => eqc x y && startswith p' s'
  | _ :: _, [] => false
  end.

(** [s.endswith(p)] *)
Definition endswith (p s : str) : bool := startswith (rev p) (rev s).

Fixpoint lstrip_by (p : ascii -> bool) (s : str) : str :=
  match s with
  | c :: s' => if p c then lstrip_by p s' else s
  | [] => []
  end.

Definition rstrip_by (p : ascii -> bool) (s : str) : str :=
  rev (lstrip_by p (rev s)).

(** [s.strip()] *)
Definition strip (s : str) : str := rstrip_by isspace (lstrip_by isspace s).

(** [s.strip(chars)] *)
Definition strip_chars (chars s : str) : str :=
  rstrip_by (fun c => mem c chars) (lstrip_by (fun c => mem c chars) s).

(** [s.rstrip(chars)] *)
Definition rstrip_chars (chars s : str) : str :=
  rstrip_by (fun c => mem c chars) s.

(** [sep.join(xs)] *)
Fixpoint join (sep : str) (xs : list str) : str :=
  match xs with
  | [] => []
  | [x] => x
  | x :: xs' => x ++ sep ++ join sep xs'
  end.

(** [s.split(sep)] for a one-character separator. *)
Fixpoint split_on (sep : ascii) (s : str) : list str :=
  match s with
  | [] => [[]]
  | c :: s' =>
      if eqc c sep then [] :: split_on sep s'
      else match split_on sep s' with
           | x :: xs => (c :: x) :: xs
           | [] => [[c]]
           end
  end.

(** [s.rfind(c)]: the index of the last occurrence of [c], if any. *)
Fixpoint rfind (c : ascii) (s : str) : option nat :=
  match s with
  | [] => None
  | x :: s' =>
      match rfind c s' with
      | Some i => Some (S i)
      | None => if eqc x c then Some 0 else None
      end
  end.

(** [s.replace(a, b)] for one-character [a] and [b]. *)
Definition replace_char (a b : ascii) (s : str) : str :=
  map (fun c => if eqc c a then b else c) s.

(** Truth value of a string and of an optional string. *)
Definition truthy (s : str) : bool := negb (eqs s []).

Definition truthy_opt (o : option str) : bool :=
  match o with Some s => truthy s | None => false end.

End Py.

Import Py.

(** ** [pathlib]: the final component of a path, its suffix and its stem *)

Module Pathlib.

(** [Path(p).name]: the last component that is neither empty nor ["."]. *)
Definition name (p : str) : str :=
  default []
    (last (List.filter (fun x => negb (eqs x []) && negb (eqs x (L ".")))
                       (split_on "/" p))).

(** [Path(p).suffix] *)
Definition suffix (p : str) : str :=
  let n := name p in
  match rfind "." n with
  | Some i => if (0 <? i)%nat && (i <? length n - 1)%nat then drop i n else []
  | None => []
  end.

(** [Path(p).stem] *)
Definition stem (p : str) : str :=
  let n := name p in
  match rfind "." n with
  | Some i => if (0 <? i)%nat && (i <? length n - 1)%nat then take i n else n
  | None => n
  end.

End Pathlib.

(** ** Configuration *)

Definition VIDEO_EXTENSIONS : list str :=
  map L [".mkv"; ".mp4"; ".avi"; ".mov"; ".m4v"; ".ts"; ".wmv"; ".divx"; ".flv"]%string.

Definition SKIP_FOLDERS : list str := map L [".."; "."; ""]%string.

(** How many folder levels are used as category. *)
Definition MAX_CATEGORY_DEPTH : nat := 2.

Definition TMDB_IMAGE_BASE : str := L "https://image.tmdb.org/t/p/w500".

(** ** The directory crawler *)

(** An entry of the result list of [crawl]: the dict with the keys ["url"],
    ["filename"] and ["category"]. *)
Record entry : Type := Entry { url : str; filename : str; category : str }.

Section Crawler.
(** [BASE_URL], from the environment. *)
Variable BASE_URL : str.
(** [SESSION.get(url)] followed by [soup.find_all("a", href=True)]: the
    [href] values of the page's anchors, in page order, or [None] when the
    request raises [RequestException].  The first argument counts the pages
    requested before, so the server may answer differently each time. *)
Variable fetch : nat -> str -> option (list str).
(** [urllib.parse.urljoin] and [urllib.parse.unquote]. *)
Variable urljoin : str -> str -> str.
Variable unquote : str -> str.

(** Parent, navigation and off-site links. *)
Definition skipped_link (href : str) : bool :=
  mem_str href (map L ["../"; ".."; "/"; ""]%string)
  || startswith (L "?") href
  || startswith (L "#") href
  || (startswith (L "http") href && negb (startswith BASE_URL href)).

(** The category path handed to the crawl of a folder found at [depth]. *)
Definition new_parts (depth : nat) (category_parts : list str) (folder_name : str)
  : list str :=
  if (depth <? MAX_CATEGORY_DEPTH)%nat then category_parts ++ [folder_name]
  else category_parts.

(** The category of a file found under [category_parts]. *)
Definition category_of (category_parts : list str) : str :=
  match category_parts with
  | [] => L "Movies"
  | _ :: _ => join (L " > ") category_parts
  end.

(** The loop over the links of one page.  [self] is the recursive call;
    [t] counts the pages requested so far.  [None]: the recursion did not
    return. *)
Fixpoint crawl_links (self : str -> nat -> list str -> nat -> option (list entry * nat))
         (url : str) (depth : nat) (category_parts : list str)
         (links : list str) (results : list entry) (t : nat)
  : option (list entry * nat) :=
  match links with
  | [] => Some (results, t)
  | link :: links' =>
      let continue := crawl_links self url depth category_parts links' in
      let href := strip link in
      if skipped_link href then continue results t else
      let full_url := urljoin url href in
      let decoded_name := unquote (rstrip_chars (L "/") href) in
      if negb (startswith BASE_URL full_url) then continue results t else
      if endswith (L "/") href then
        let folder_name := decoded_name in
        if mem_str folder_name SKIP_FOLDERS then continue results t else
        match self full_url (depth + 1) (new_parts depth category_parts folder_name) t with
        | Some (found, t') => continue (results ++ found) t'
        | None => None
        end
      else
        let ext := lower (Pathlib.suffix decoded_name) in
        if negb (mem_str ext VIDEO_EXTENSIONS) then continue results t else
        continue (results ++ [Entry full_url decoded_name (category_of category_parts)]) t
  end.

(** A link that [crawl] takes for a folder to descend into. *)
Definition folder_link (url link : str) : bool :=
  let href := strip link in
  negb (skipped_link href)
  && startswith BASE_URL (urljoin url href)
  && endswith (L "/") href
  && negb (mem_str (unquote (rstrip_chars (L "/") href)) SKIP_FOLDERS).

(** [crawl(url, depth, category_parts)].  [fuel] bounds the depth of the
    recursion, which the source does not bound. *)
Fixpoint crawl (fuel : nat) (url : str) (depth : nat) (category_parts : list str)
         (t : nat) : option (list entry * nat) :=
  match fuel with
  | O => None
  | S fuel' =>
      match fetch t url with
      | None => Some ([], S t)
      | Some links =>
          crawl_links (crawl fuel') url depth category_parts links [] (S t)
      end
  end.

(** [crawl] with the way to each entry written beside it: [path] holds the
    decoded names of all the folders gone through from the page the crawl
    started at, whatever the depth.  Nothing else differs from [crawl] (see
    [crawl_traced_erase]). *)
Fixpoint crawl_links_traced
         (self : str -> nat -> list str -> list str -> nat
                 -> option (list (entry * list str) * nat))
         (url : str) (depth : nat) (category_parts path : list str)
         (links : list str) (results : list (entry * list str)) (t : nat)
  : option (list (entry * list str) * nat) :=
  match links with
  | [] => Some (results, t)
  | link :: links' =>
      let continue := crawl_links_traced self url depth category_parts path links' in
      let href := strip link in
      if skipped_link href then continue results t else
      let full_url := urljoin url href in
      let decoded_name := unquote (rstrip_chars (L "/") href) in
      if negb (startswith BASE_URL full_url) then continue results t else
      if endswith (L "/") href then
        let folder_name := decoded_name in
        if mem_str folder_name SKIP_FOLDERS then continue results t else
        match self full_url (depth + 1) (new_parts depth category_parts folder_name)
                   (path ++ [folder_name]) t with
        | Some (found, t') => continue (results ++ found) t'
        | None => None
        end
      else
        let ext := lower (Pathlib.suffix decoded_name) in
        if negb (mem_str ext VIDEO_EXTENSIONS) then continue results t else
        continue (results
                  ++ [(Entry full_url decoded_name (category_of category_parts), path)]) t
  end.

Fixpoint crawl_traced (fuel : nat) (url : str) (depth : nat)
         (category_parts path : list str) (t : nat)
  : option (list (entry * list str) * nat) :=
  match fuel with
  | O => None
  | S fuel' =>
      match fetch t url with
      | None => Some ([], S t)
      | Some links =>
          crawl_links_traced (crawl_traced fuel') url depth category_parts path
                             links [] (S t)
      end
  end.
End Crawler.

(** A traced result without the ways. *)
Definition erase (r : list (entry * list str) * nat) : list entry * nat :=
  (map fst (fst r), snd r).

(** The category of an entry found on the way [snd x], by a crawl that
    started at [depth] with the category path [parts] after the way [path]:
    the given path, then the next [MAX_CATEGORY_DEPTH - depth] names of the
    way. *)
Definition category_on (depth : nat) (parts path : list str)
           (x : entry * list str) : Prop :=
  path `prefix_of` snd x
  /\ category (fst x)
     = category_of (parts ++ take (MAX_CATEGORY_DEPTH - depth)
                                  (drop (length path) (snd x))).

(** ** [re]: the fragment of Python's regular expressions the scraper uses

    A backtracking matcher in continuation-passing style: alternatives are
    tried left to right, repetitions are greedy.  Repetition is of a one
    character item only, which is all the source's patterns need. *)

Module Re.

(** One-character items. *)
Inductive item : Type :=
| Lit (c : ascii)        (* a literal character *)
| Digit                  (* \d *)
| Space                  (* \s *)
| Dot                    (* .  : any character but a newline *)
| OneOf (cs : str).      (* [...] *)

Inductive regex : Type :=
| Eps
| Chr (i : item)
| Seq (r1 r2 : regex)
| Alt (r1 r2 : regex)
| Rep (i : item) (lo : nat) (hi : option nat)   (* i{lo,hi}, greedy *)
| WordB                                          (* \b *)
| Eol.                                           (* $  *)

(** [ic] is the flag [re.IGNORECASE]. *)
Definition item_match (ic : bool) (i : item) (c : ascii) : bool :=
  match i with
  | Lit x => if ic then eqc (lower_char c) (lower_char x) else eqc c x
  | Digit => isdecimal c
  | Space => isspace c
  | Dot => negb (eqc c "010")
  | OneOf cs => mem c cs
  end.

Definition isword_opt (o : option ascii) : bool :=
  match o with Some c => isword c | None => false end.

Section Matcher.
Context {A : Type}.
Variable ic : bool.

(** A position in the subject: the character before it, and what follows. *)
Definition cont := option ascii -> str -> option A.

Fixpoint rep (i : item) (lo : nat) (hi : option nat)
         (prev : option ascii) (s : str) (k : cont) : option A :=
  match s with
  | c :: s' =>
      if negb (match hi with Some 0 => true | _ => false end) && item_match ic i c then
        match rep i (pred lo) (option_map pred hi) (Some c) s' k with
        | Some a => Some a
        | None => if (lo =? 0)%nat then k prev s else None
        end
      else if (lo =? 0)%nat then k prev s else None
  | [] => if (lo =? 0)%nat then k prev s else None
  end.

Fixpoint run (r : regex) (prev : option ascii) (s : str) (k : cont) : option A :=
  match r with
  | Eps => k prev s
  | Chr i =>
      match s with
      | c :: s' => if item_match ic i c then k (Some c) s' else None
      | [] => None
      end
  | Seq r1 r2 => run r1 prev s (fun p t => run r2 p t k)
  | Alt r1 r2 =>
      match run r1 prev s k with
      | Some a => Some a
      | None => run r2 prev s k
      end
  | Rep i lo hi => rep i lo hi prev s k
  | WordB =>
      if xorb (isword_opt prev) (isword_opt (head s)) then k prev s else None
  | Eol =>
      match s with
      | [] => k prev s
      | [c] => if eqc c "010" then k prev s else None
      | _ => None
      end
  end.
End Matcher.

(** A match of [r] that starts at the given position: what follows the match.
    With [must_advance] an empty match is refused there. *)
Definition match_at (ic : bool) (r : regex) (prev : option ascii) (s : str)
           (must_advance : bool) : option str :=
  run ic r prev s
      (fun _ t => if must_advance && (length t =? length s)%nat
                  then None else Some t).

(** [re.search]: the leftmost match, as (text before, matched text, text
    after). *)
Fixpoint search_from (ic : bool) (r : regex) (prev : option ascii) (s : str)
         (must_advance : bool) : option (str * str * str) :=
  match match_at ic r prev s must_advance with
  | Some t => Some ([], take (length s - length t) s, t)
  | None =>
      match s with
      | [] => None
      | c :: s' =>
          match search_from ic r (Some c) s' false with
          | Some (pre, m, post) => Some (c :: pre, m, post)
          | None => None
          end
      end
  end.

Definition search (ic : bool) (r : regex) (s : str) : option (str * str * str) :=
  search_from ic r None s false.

(** [re.sub]: every non-overlapping match, left to right, replaced by [repl].
    After an empty match the next one must advance. *)
Fixpoint sub_loop (fuel : nat) (ic : bool) (r : regex) (repl : str)
         (prev : option ascii) (s : str) (must_advance : bool) : str :=
  match fuel with
  | O => s
  | S fuel' =>
      match search_from ic r prev s must_advance with
      | None => s
      | Some (pre, m, post) =>
          pre ++ repl ++
          sub_loop fuel' ic r repl
                   (match last (pre ++ m) with Some c => Some c | None => prev end)
                   post
                   (match m with [] => true | _ => false end)
      end
  end.

Definition sub (ic : bool) (r : regex) (repl : str) (s : str) : str :=
  sub_loop (2 * length s + 2) ic r repl None s false.

(** Pattern syntax. *)
Definition lit (s : str) : regex := foldr (fun c r => Seq (Chr (Lit c)) r) Eps s.

Definition alts (rs : list regex) : regex :=
  match rs with
  | [] => Eps
  | r :: rs' => foldl Alt r rs'
  end.

Definition plus (i : item) : regex := Rep i 1 None.
Definition star (i : item) : regex := Rep i 0 None.
Definition times (n : nat) (i : item) : regex := Rep i n (Some n).

End Re.

Import Re.

(** ** The filename parser *)

(** [r"[._]"] *)
Definition re_dots : regex := Chr (OneOf (L "._")).

(** [r"\b(19|20)\d{2}\b"] *)
Definition re_year : regex :=
  Seq WordB (Seq (alts [lit (L "19"); lit (L "20")]) (Seq (times 2 Digit) WordB)).

Definition quality_tags : list str :=
  map L
    [ "1080p"; "720p"; "480p"; "4k"; "2160p"; "uhd"; "bluray"; "blu ray";
      "bdrip"; "brrip"; "webrip"; "web dl"; "web"; "hdtv"; "hdcam"; "cam";
      "hdrip"; "x264"; "x265"; "hevc"; "avc"; "aac"; "dts"; "ac3"; "h264";
      "h265"; "dvdrip"; "dvdscr"; "extended"; "remastered"; "theatrical";
      "proper"; "yify"; "yts"; "rarbg"; "10bit"; "hdr"; "dolby"; "atmos";
      "directors cut"; "unrated"; "retail" ]%string.

(** [r"\s+(1080p|720p|...|retail).*$"] *)
Definition re_tags : regex :=
  Seq (plus Space) (Seq (alts (map lit quality_tags)) (Seq (star Dot) Eol)).

(** [r"[\[\]()]"] *)
Definition re_brackets : regex := Chr (OneOf (L "[]()")).

(** The name the year is searched in: the stem with dots and underscores
    replaced by spaces. *)
Definition stripped_name (filename : str) : str :=
  sub false re_dots (L " ") (Pathlib.stem filename).

(** The title and the year before the tags are stripped. *)
Definition provisional (name : str) : str * option str :=
  match search false re_year name with
  | Some (pre, m, _) => (strip pre, Some m)
  | None => (name, None)
  end.

(** The tag stripping and trimming applied to the provisional title. *)
Definition clean_title (title : str) : str :=
  let title := strip (strip_chars (L " -[]()") (sub true re_tags [] title)) in
  strip (sub false re_brackets [] title).

Definition parse_movie_name (filename : str) : str * option str :=
  let name := stripped_name filename in
  let '(title, year) := provisional name in
  (clean_title title, year).

(** ** The metadata lookup *)

(** One element of the ["results"] array of the search response.  A field is
    [None] when its key is missing (for [poster_path], [backdrop_path] and
    [release_date] also when it is null). *)
Record movie : Type := Movie {
  m_title : option str;
  m_release_date : option str;
  m_overview : option str;
  m_id : option Z;
  m_poster_path : option str;
  m_backdrop_path : option str
}.

(** The dict [tmdb_search] returns on a match. *)
Record info : Type := Info {
  i_title : str;
  i_year : str;
  i_overview : str;
  i_tmdb_id : option Z;
  i_poster_url : str;
  i_backdrop_url : str
}.

(** The query parameters that vary ([api_key] and [language] are fixed). *)
Record params : Type := Params {
  query : str;
  primary_release_year : option str
}.

(** The outcome of one [SESSION.get] to the search endpoint: a
    [RequestException], or the ["results"] array of the response. *)
Inductive response : Type :=
| Failed
| Results (rs : list movie).

(** [_tmdb_cache] and the requests sent so far, oldest first. *)
Record tmdb_state : Type := TmdbState {
  cache : gmap str (option info);
  requests : list params
}.

Definition dquote : ascii := "034".
Definition newline : ascii := "010".

(** [f"{title}|||{year}"] *)
Definition cache_key (title : str) (year : option str) : str :=
  title ++ L "|||" ++ match year with Some y => y | None => L "None" end.

Definition image_url (path : option str) : str :=
  match path with
  | Some p => if truthy p then TMDB_IMAGE_BASE ++ p else []
  | None => []
  end.

Definition make_info (title : str) (year : option str) (m : movie) : info :=
  {| i_title := default title (m_title m);
     i_year :=
       (let d := take 4 (default [] (m_release_date m)) in
        if truthy d then d
        else match year with
             | Some y => if truthy y then y else []
             | None => []
             end);
     i_overview := replace_char dquote "'" (default [] (m_overview m));
     i_tmdb_id := m_id m;
     i_poster_url := image_url (m_poster_path m);
     i_backdrop_url := image_url (m_backdrop_path m) |}.

Section Tmdb.
(** The metadata service: the answer to a request, given how many requests
    were sent before it. *)
Variable api : nat -> params -> response.

Definition send (p : params) (st : tmdb_state) : response * tmdb_state :=
  (api (length (requests st)) p,
   {| cache := cache st; requests := requests st ++ [p] |}).

(** The loop [for attempt in range(n)]: [Some results] after the [break],
    [None] in the [else] branch. *)
Fixpoint attempts (n : nat) (p : params) (st : tmdb_state)
  : option (list movie) * tmdb_state :=
  match n with
  | O => (None, st)
  | S n' =>
      match send p st with
      | (Results rs, st') => (Some rs, st')
      | (Failed, st') => attempts n' p st'
      end
  end.

Definition store (key : str) (v : option info) (st : tmdb_state) : tmdb_state :=
  {| cache := <[key := v]> (cache st); requests := requests st |}.

(** The query: the year filter is set [if year:]. *)
Definition search_params (title : str) (year : option str) : params :=
  {| query := title;
     primary_release_year := if truthy_opt year then year else None |}.

(** The body of [tmdb_search], with the recursive call as [self]. *)
Definition tmdb_search_body
           (self : str -> option str -> tmdb_state -> option info * tmdb_state)
           (title : str) (year : option str) (st : tmdb_state)
  : option info * tmdb_state :=
  let cache_key := cache_key title year in
  match cache st !! cache_key with
  | Some v => (v, st)
  | None =>
      match attempts 3 (search_params title year) st with
      | (None, st') => (None, store cache_key None st')
      | (Some results, st') =>
          match results with
          | [] =>
              if truthy_opt year then self title None st'
              else (None, store cache_key None st')
          | m :: _ =>
              let info := make_info title year m in
              (Some info, store cache_key (Some info) st')
          end
      end
  end.

(** [tmdb_search(title, year=None)].  The recursive call passes
    [year=None] and so never recurses again: two levels of the body are the
    whole function (see [tmdb_search_unfold]). *)
Definition tmdb_search : str -> option str -> tmdb_state -> option info * tmdb_state :=
  tmdb_search_body (tmdb_search_body (fun _ _ st => (None, st))).


(** The call ends through the year-less retry: a cache miss, a year, and a
    filtered search that succeeds with no result. *)
Definition takes_fallback (title : str) (year : option str) (st : tmdb_state) : bool :=
  match cache st !! cache_key title year with
  | Some _ => false
  | None =>
      truthy_opt year
      && match fst (attempts 3 (search_params title year) st) with
         | Some [] => true
         | _ => false
         end
  end.
End Tmdb.

(** A poster or backdrop URL as [tmdb_search] builds it: empty, or under the
    image base. *)
Definition image_url_ok (u : str) : bool := eqs u [] || startswith TMDB_IMAGE_BASE u.

(** A record that is safe to print between double quotes: no double quote in
    the overview, and well-formed image URLs. *)
Definition info_ok (i : info) : bool :=
  negb (mem dquote (i_overview i))
  && image_url_ok (i_poster_url i) && image_url_ok (i_backdrop_url i).

(** Every record stored in the cache is [info_ok]. *)
Definition cache_ok (st : tmdb_state) : Prop :=
  forall k i, cache st !! k = Some (Some i) -> info_ok i = true.

(** A request of a call for [(title, year)]: the title as query, and the
    year or nothing as filter. *)
Definition request_of (title : str) (year : option str) (p : params) : Prop :=
  query p = title /\ (primary_release_year p = None \/ primary_release_year p = year).

(** What a call does to the state: it appends at most [n] requests of its own
    and keeps every cache entry. *)
Definition extends (n : nat) (title : str) (year : option str)
           (st st' : tmdb_state) : Prop :=
  (exists new, requests st' = requests st ++ new
               /\ length new <= n /\ Forall (request_of title year) new)
  /\ (forall k v, cache st !! k = Some v -> cache st' !! k = Some v).

(** ** The playlist builder *)

(** [<] on strings: lexicographic on code points. *)
Fixpoint str_lt (a b : str) : bool :=
  match a, b with
  | _, [] => false
  | [], _ :: _ => true
  | x :: a', y :: b' =>
      (code x <? code y)%N || ((code x =? code y)%N && str_lt a' b')
  end.

(** The sort key [(f["category"].lower(), f["filename"].lower())]. *)
Definition sort_key (f : entry) : str * str :=
  (lower (category f), lower (filename f)).

(** [<] on pairs of strings. *)
Definition key_lt (a b : str * str) : bool :=
  if eqs (fst a) (fst b) then str_lt (snd a) (snd b) else str_lt (fst a) (fst b).

(** [sorted(files, key=...)]: a stable sort, here by insertion.  An entry
    goes before the first one whose key is not smaller than its own. *)
Fixpoint insert_sorted (x : entry) (l : list entry) : list entry :=
  match l with
  | [] => [x]
  | y :: l' =>
      if key_lt (sort_key y) (sort_key x) then y :: insert_sorted x l'
      else x :: l
  end.

Definition files_sorted (files : list entry) : list entry :=
  foldr insert_sorted [] files.

(** [<=] on sort keys: not greater. *)
Definition key_le (a b : str * str) : Prop := key_lt b a = false.

(** Ascending order of the sort keys. *)
Definition ascending (l : list entry) : Prop :=
  StronglySorted (fun x y => key_le (sort_key x) (sort_key y)) l.

Section Builder.
Variable api : nat -> params -> response.

(** [f"{t} ({y})"] *)
Definition with_year (t y : str) : str := t ++ L " (" ++ y ++ L ")".

Definition extinf (display_title logo group overview : str) : str :=
  L "#EXTINF:-1 "
  ++ L "tvg-name=" ++ [dquote] ++ display_title ++ [dquote] ++ L " "
  ++ L "tvg-logo=" ++ [dquote] ++ logo ++ [dquote] ++ L " "
  ++ L "group-title=" ++ [dquote] ++ group ++ [dquote] ++ L " "
  ++ L "tvg-plot=" ++ [dquote] ++ overview ++ [dquote] ++ L ","
  ++ display_title.

(** The state of the loop of [build_m3u]. *)
Record builder : Type := Builder {
  lines : list str;
  matched : nat;
  unmatched : nat;
  tmdb : tmdb_state
}.

(** One iteration of the loop. *)
Definition build_entry (b : builder) (e : entry) : builder :=
  let '(title, year) := parse_movie_name (filename e) in
  let '(found, st) := tmdb_search api title year (tmdb b) in
  match found with
  | Some i =>
      let display_title :=
        if truthy (i_year i) then with_year (i_title i) (i_year i) else i_title i in
      let logo := if truthy (i_poster_url i) then i_poster_url i else i_backdrop_url i in
      {| lines := lines b
                  ++ [extinf display_title logo (category e) (i_overview i); url e; []];
         matched := matched b + 1;
         unmatched := unmatched b;
         tmdb := st |}
  | None =>
      let display_title :=
        match year with
        | Some y => if truthy y then with_year title y else title
        | None => title
        end in
      {| lines := lines b
                  ++ [extinf display_title [] (category e ++ L " [Unmatched]") []; url e; []];
         matched := matched b;
         unmatched := unmatched b + 1;
         tmdb := st |}
  end.

Definition header : str := L "#EXTM3U" ++ [newline].

(** The three lines of a playlist record: the metadata line, the URL line
    and the blank line. *)
Definition record_lines (r : str * str) : list str := [fst r; snd r; []].

(** The loop of [build_m3u], from the header on. *)
Definition build_loop (files : list entry) (st : tmdb_state) : builder :=
  foldl build_entry
        {| lines := [header]; matched := 0; unmatched := 0; tmdb := st |}
        (files_sorted files).

(** [build_m3u(files)]: the playlist text and the state it leaves. *)
Definition build_m3u (files : list entry) (st : tmdb_state) : str * tmdb_state :=
  let b := build_loop files st in
  (join [newline] (lines b), tmdb b).
End Builder.

(** ** The main block *)

(** How a run ends: the exit status, and the text written to [OUTPUT_FILE]
    if any. *)
Record outcome : Type := Outcome { exit_status : Z; written : option str }.

Definition empty_state : tmdb_state := {| cache := ∅; requests := [] |}.

Section Main.
Variable BASE_URL : str.
Variable fetch : nat -> str -> option (list str).
Variable urljoin : str -> str -> str.
Variable unquote : str -> str.
Variable api : nat -> params -> response.

Definition main (fuel : nat) : option outcome :=
  match crawl BASE_URL fetch urljoin unquote fuel BASE_URL 0 [] 0 with
  | None => None
  | Some (files, _) =>
      match files with
      | [] => Some {| exit_status := 1; written := None |}
      | _ :: _ =>
          let '(m3u, _) := build_m3u api files empty_state in
          Some {| exit_status := 0; written := Some m3u |}
      end
  end.
End Main.

(** ** Year tokens, as the specification words them

    A standalone 4-digit token beginning with [19] or [20]: four characters
    [19dd] or [20dd] with decimal digits [d], neither preceded nor followed by
    a word character (a letter, a digit or an underscore). *)

Definition year_here (prev : option ascii) (s : str) : bool :=
  match s with
  | a :: b :: c :: d :: post =>
      (eqs [a; b] (L "19") || eqs [a; b] (L "20"))
      && isdecimal c && isdecimal d
      && negb (isword_opt prev) && negb (isword_opt (head post))
  | _ => false
  end.

(** The character before index [j] of [s], where [prev] precedes [s]. *)
Definition prev_at (prev : option ascii) (s : str) (j : nat) : option ascii :=
  match last (take j s) with Some c => Some c | None => prev end.

(** The token starts at index [i] of [name]. *)
Definition year_token_at (name : str) (i : nat) : bool :=
  year_here (prev_at None name i) (drop i name).

(** ** A small directory server, for examples

    [http://h/] holds [a.mkv] and the folder [Action/]; [Action/] holds
    [b.MP4] and [2020/]; [2020/] holds [HD/]; [HD/] holds [c.avi] and
    [readme.txt]. *)

Module Demo.
Definition BASE_URL : str := L "http://h/".

Definition fetch (_ : nat) (u : str) : option (list str) :=
  if eqs u (L "http://h/") then Some (map L ["../"; "Action/"; "a.mkv"]%string)
  else if eqs u (L "http://h/Action/") then Some (map L ["2020/"; "b.MP4"]%string)
  else if eqs u (L "http://h/Action/2020/") then Some (map L ["HD/"]%string)
  else if eqs u (L "http://h/Action/2020/HD/")
       then Some (map L ["c.avi"; "readme.txt"; "?C=N;O=D"]%string)
  else None.

(** Enough of [urljoin] and [unquote] for relative links without
    escapes. *)
Definition urljoin (base href : str) : str := base ++ href.
Definition unquote (s : str) : str := s.

Definition crawl := crawl BASE_URL fetch urljoin unquote.
Definition crawl_traced := crawl_traced BASE_URL fetch urljoin unquote.

Definition found : list entry :=
  [ Entry (L "http://h/Action/2020/HD/c.avi") (L "c.avi") (L "Action > 2020");
    Entry (L "http://h/Action/b.MP4") (L "b.MP4") (L "Action");
    Entry (L "http://h/a.mkv") (L "a.mkv") (L "Movies") ].

(** A server whose folder [Gone/] cannot be fetched. *)
Definition fetch_broken (_ : nat) (u : str) : option (list str) :=
  if eqs u (L "http://h/") then Some (map L ["Gone/"; "a.mkv"]%string) else None.

(** A service that is down. *)
Definition api_down (_ : nat) (_ : params) : response := Failed.

Definition the_matrix : movie :=
  {| m_title := Some (L "The Matrix");
     m_release_date := Some (L "1999-03-30");
     m_overview := Some (L "A hacker learns the truth.");
     m_id := Some 603%Z;
     m_poster_path := Some (L "/p.jpg");
     m_backdrop_path := None |}.

(** A service whose first answer is a failure. *)
(** Two files of one name in two folders below the category depth. *)
Definition x_in_c : entry :=
  Entry (L "http://h/A/B/C/x.mkv") (L "x.mkv") (L "A > B").
Definition x_in_d : entry :=
  Entry (L "http://h/A/B/D/x.mkv") (L "x.mkv") (L "A > B").

Definition api_flaky (n : nat) (_ : params) : response :=
  if (n =? 0)%nat then Failed else Results [the_matrix].

(** A service that knows no film. *)
Definition api_empty (_ : nat) (_ : params) : response := Results [].

(** A service that knows one film, and no release year. *)
Definition api_yearless (_ : nat) (p : params) : response :=
  match primary_release_year p with
  | Some _ => Results []
  | None => Results [the_matrix]
  end.
End Demo.
(** * Properties *)

(** ** Paths *)

Example stem_of_path : Pathlib.stem (L "a/b/The.Matrix.1999.mkv") = L "The.Matrix.1999".
Proof. reflexivity. Qed.

Example stem_of_dotfile : Pathlib.stem (L ".mkv") = L ".mkv".
Proof. reflexivity. Qed.

Example stem_trailing_dot : Pathlib.stem (L "foo.") = L "foo.".
Proof. reflexivity. Qed.

Example suffix_of_path : Pathlib.suffix (L "a/b/The.Matrix.1999.MKV") = L ".MKV".
Proof. reflexivity. Qed.

Example name_skips_dot : Pathlib.name (L "a/./") = L "a".
Proof. reflexivity. Qed.

(** ** Characters and strings *)

Lemma eqc_eq (a b : ascii) : eqc a b = true <-> a = b.
Proof.
  unfold eqc, code. rewrite N.eqb_eq. split; [|congruence].
  intros H. rewrite <- (ascii_N_embedding a), <- (ascii_N_embedding b). congruence.
Qed.

Lemma eqc_refl (a : ascii) : eqc a a = true.
Proof. now apply eqc_eq. Qed.

Lemma eqs_eq (a b : str) : eqs a b = true <-> a = b.
Proof.
  revert b. induction a as [|x a IH]; intros [|y b]; simpl; try easy.
  rewrite andb_true_iff, eqc_eq, IH. split; [intros []|intros [=]]; subst; auto.
Qed.

Lemma eqs_refl (a : str) : eqs a a = true.
Proof. now apply eqs_eq. Qed.

Lemma mem_str_In (x : str) (xs : list str) : mem_str x xs = true <-> In x xs.
Proof.
  unfold mem_str. rewrite existsb_exists. split.
  - intros (y & Hy & E). apply eqs_eq in E. now subst.
  - intros H. exists x. split; [assumption | apply eqs_refl].
Qed.

Lemma isdecimal_isword (c : ascii) : isdecimal c = true -> isword c = true.
Proof.
  unfold isword, isalnum, isdecimal. intros ->. reflexivity.
Qed.

Lemma startswith_prefix (p s : str) : startswith p s = true <-> exists t, s = p ++ t.
Proof.
  revert s. induction p as [|x p IH]; intros s; simpl.
  - split; eauto.
  - destruct s as [|y s].
    + split; [easy | intros [t [=]]].
    + rewrite andb_true_iff, eqc_eq, IH. split.
      * intros [-> [t ->]]. eauto.
      * intros [t [= -> ->]]. eauto.
Qed.

Lemma sublist_rev_mono {A} (l k : list A) :
  l `sublist_of` k -> rev l `sublist_of` rev k.
Proof.
  induction 1 as [|x l k _ IH|x l k _ IH]; simpl.
  - constructor.
  - apply sublist_app; [assumption | reflexivity].
  - now apply sublist_inserts_r.
Qed.

(** Stripping keeps a part of the string. *)
Lemma lstrip_by_sublist p (s : str) : lstrip_by p s `sublist_of` s.
Proof.
  induction s as [|c s IH]; simpl; [constructor|].
  destruct (p c); [now apply sublist_cons | reflexivity].
Qed.

Lemma rstrip_by_sublist p (s : str) : rstrip_by p s `sublist_of` s.
Proof.
  unfold rstrip_by. rewrite <- (rev_involutive s) at 2.
  apply sublist_rev_mono, lstrip_by_sublist.
Qed.

Lemma strip_sublist (s : str) : strip s `sublist_of` s.
Proof.
  unfold strip. etransitivity; [apply rstrip_by_sublist | apply lstrip_by_sublist].
Qed.

Lemma strip_chars_sublist cs (s : str) : strip_chars cs s `sublist_of` s.
Proof.
  unfold strip_chars. etransitivity; [apply rstrip_by_sublist | apply lstrip_by_sublist].
Qed.

(** Stripping keeps a first character that is not stripped. *)
Lemma lstrip_by_head p c (s : str) : p c = false -> lstrip_by p (c :: s) = c :: s.
Proof. intros H. simpl. now rewrite H. Qed.

Lemma lstrip_by_snoc p c (s : str) :
  p c = false -> exists t, lstrip_by p (s ++ [c]) = t ++ [c].
Proof.
  intros H. induction s as [|x s IH]; simpl.
  - rewrite H. now exists [].
  - destruct (p x); [assumption | now exists (x :: s)].
Qed.

Lemma rstrip_by_head p c (s : str) :
  p c = false -> exists t, rstrip_by p (c :: s) = c :: t.
Proof.
  intros H. unfold rstrip_by. simpl.
  destruct (lstrip_by_snoc p c (rev s) H) as [t ->].
  exists (rev t). now rewrite rev_app_distr.
Qed.

Lemma strip_head c (s : str) : isspace c = false -> exists t, strip (c :: s) = c :: t.
Proof.
  intros H. unfold strip. rewrite lstrip_by_head by assumption.
  now apply rstrip_by_head.
Qed.

Lemma strip_chars_head cs c (s : str) :
  mem c cs = false -> exists t, strip_chars cs (c :: s) = c :: t.
Proof.
  intros H. unfold strip_chars. rewrite lstrip_by_head by assumption.
  now apply (rstrip_by_head (fun c => mem c cs)).
Qed.

(** ** The matcher *)

Section MatcherFacts.
Context {A : Type}.
Variable ic : bool.

(** A successful run hands the continuation what is left of the subject. *)
Lemma rep_suffix i lo hi prev (s : str) (k : @cont A) a :
  rep ic i lo hi prev s k = Some a ->
  exists p u t, s = u ++ t /\ k p t = Some a.
Proof.
  revert lo hi prev. induction s as [|c s IH]; intros lo hi prev; simpl.
  - destruct (lo =? 0)%nat; [|easy]. intros H. now exists prev, [], [].
  - destruct (negb _ && item_match ic i c).
    + destruct (rep ic i (pred lo) (option_map pred hi) (Some c) s k) eqn:E.
      * intros [= ->]. apply IH in E as (p & u & t & -> & Hk).
        now exists p, (c :: u), t.
      * destruct (lo =? 0)%nat; [|easy]. intros H. now exists prev, [], (c :: s).
    + destruct (lo =? 0)%nat; [|easy]. intros H. now exists prev, [], (c :: s).
Qed.

Lemma run_suffix r prev (s : str) (k : @cont A) a :
  run ic r prev s k = Some a ->
  exists p u t, s = u ++ t /\ k p t = Some a.
Proof.
  revert prev s k. induction r as [|i|r1 IH1 r2 IH2|r1 IH1 r2 IH2|i lo hi| |];
    intros prev s k; simpl.
  - intros H. now exists prev, [], s.
  - destruct s as [|c s]; [easy|]. destruct (item_match ic i c); [|easy].
    intros H. now exists (Some c), [c], s.
  - intros H. apply IH1 in H as (p & u & t & -> & H).
    apply IH2 in H as (p' & u' & t' & -> & H).
    exists p', (u ++ u'), t'. now rewrite <- app_assoc.
  - destruct (run ic r1 prev s k) eqn:E.
    + intros [= ->]. now apply IH1 in E.
    + apply IH2.
  - apply rep_suffix.
  - destruct (xorb _ _); [|easy]. intros H. now exists prev, [], s.
  - destruct s as [|c [|d s]]; try easy.
    + intros H. now exists prev, [], [].
    + destruct (eqc c _); [|easy]. intros H. now exists prev, [], [c].
Qed.
End MatcherFacts.

Lemma match_at_split ic r prev (s : str) ma t :
  match_at ic r prev s ma = Some t -> exists u, s = u ++ t.
Proof.
  unfold match_at. intros H. apply run_suffix in H as (p & u & t' & -> & H).
  destruct (ma && _); [easy|]. injection H as ->. now exists u.
Qed.

Lemma match_at_matched ic r prev (s : str) ma t :
  match_at ic r prev s ma = Some t -> s = take (length s - length t) s ++ t.
Proof.
  intros [u ->]%match_at_split. rewrite length_app.
  replace (length u + length t - length t) with (length u) by lia.
  now rewrite take_app_length.
Qed.

(** [re.search] splits the subject into three parts. *)
Lemma search_from_split ic r prev (s : str) ma pre m post :
  search_from ic r prev s ma = Some (pre, m, post) -> s = pre ++ m ++ post.
Proof.
  revert prev ma pre m post.
  induction s as [|c s IH]; intros prev ma pre m post; cbn [search_from].
  - destruct (match_at ic r prev [] ma) as [t|] eqn:E; [|easy].
    apply match_at_matched in E. intros [= <- <- <-]. exact E.
  - destruct (match_at ic r prev (c :: s) ma) as [t|] eqn:E.
    + apply match_at_matched in E. intros [= <- <- <-]. exact E.
    + destruct (search_from ic r (Some c) s false) as [[[pre' m'] post']|] eqn:E'; [|easy].
      intros [= <- <- <-]. apply IH in E'. now rewrite E'.
Qed.

(** A match that must advance is not empty. *)
Lemma match_at_advance ic r prev (s : str) t :
  match_at ic r prev s true = Some t -> length t < length s.
Proof.
  unfold match_at. intros H. apply run_suffix in H as (p & u & t' & -> & H).
  cbn [andb] in H. destruct (Nat.eqb_spec (length t') (length (u ++ t'))) as [|Hne];
    [discriminate H|].
  injection H as ->. rewrite length_app in *. lia.
Qed.

Lemma search_from_advance ic r prev (s : str) pre m post :
  search_from ic r prev s true = Some (pre, m, post) -> pre = [] -> m <> [].
Proof.
  destruct s as [|c s]; cbn [search_from].
  - destruct (match_at ic r prev [] true) as [t|] eqn:E; [|easy].
    apply match_at_advance in E. cbn in E. lia.
  - destruct (match_at ic r prev (c :: s) true) as [t|] eqn:E.
    + intros [= <- <- <-] _ Hm. apply match_at_advance in E.
      apply (f_equal length) in Hm. rewrite length_take in Hm. cbn [length] in *. lia.
    + destruct (search_from ic r (Some c) s false) as [[[pre' m'] post']|]; [|easy].
      now intros [= <- <- <-].
Qed.

(** The fuel of [sub] is enough: more of it changes nothing. *)
Lemma sub_loop_fuel fuel1 fuel2 ic r repl prev (s : str) (ma : bool) :
  2 * length s + (if ma then 0 else 1) < fuel1 ->
  2 * length s + (if ma then 0 else 1) < fuel2 ->
  sub_loop fuel1 ic r repl prev s ma = sub_loop fuel2 ic r repl prev s ma.
Proof.
  revert fuel2 prev s ma.
  induction fuel1 as [|fuel1 IH]; intros [|fuel2] prev s ma H1 H2; try lia.
  cbn [sub_loop].
  destruct (search_from ic r prev s ma) as [[[pre m] post]|] eqn:E; [|reflexivity].
  pose proof (search_from_split _ _ _ _ _ _ _ _ E) as Hs.
  apply (f_equal length) in Hs. rewrite !length_app in Hs.
  assert (Hm : 2 * length post + (if match m with [] => true | _ :: _ => false end then 0 else 1)
               < 2 * length s + (if ma then 0 else 1)).
  { destruct m as [|x m]; cbn [length] in *; [|destruct ma; lia].
    destruct pre as [|y pre]; cbn [length] in *; [|destruct ma; lia].
    destruct ma; [|lia].
    now destruct (search_from_advance _ _ _ _ _ _ _ E eq_refl). }
  do 2 f_equal. apply IH; lia.
Qed.

Lemma sub_fuel_enough fuel ic r repl (s : str) :
  2 * length s + 1 < fuel -> sub ic r repl s = sub_loop fuel ic r repl None s false.
Proof. intros H. unfold sub. apply sub_loop_fuel; lia. Qed.

(** Deleting the matches of a pattern keeps a part of the string. *)
Lemma sub_loop_sublist fuel ic r prev (s : str) ma :
  sub_loop fuel ic r [] prev s ma `sublist_of` s.
Proof.
  revert prev s ma. induction fuel as [|fuel IH]; intros prev s ma; simpl; [reflexivity|].
  destruct (search_from ic r prev s ma) as [[[pre m] post]|] eqn:E; [|reflexivity].
  apply search_from_split in E as ->.
  apply sublist_app; [reflexivity|]. apply sublist_inserts_l, IH.
Qed.

Lemma sub_sublist ic r (s : str) : sub ic r [] s `sublist_of` s.
Proof. apply sub_loop_sublist. Qed.

(** Where no match can start at the first character, that character stays. *)
Lemma sub_head ic r repl c (s : str) :
  (forall prev ma, match_at ic r prev (c :: s) ma = None) ->
  exists t, sub ic r repl (c :: s) = c :: t.
Proof.
  intros H. unfold sub. cbn [length Nat.mul Nat.add sub_loop search_from].
  rewrite H.
  destruct (search_from ic r (Some c) s false) as [[[pre m] post]|]; eauto.
Qed.

(** ** The year pattern *)

Lemma rep_zero {A} ic i prev (s : str) (k : @cont A) :
  rep ic i 0 (Some 0) prev s k = k prev s.
Proof. destruct s; reflexivity. Qed.

Lemma isword_1 : isword "1" = true.
Proof. reflexivity. Qed.

Lemma isword_2 : isword "2" = true.
Proof. reflexivity. Qed.

(** At one position the pattern matches exactly a year token. *)
Lemma match_at_year prev (s : str) :
  match_at false re_year prev s false
  = if year_here prev s then Some (drop 4 s) else None.
Proof.
  unfold match_at, re_year, year_here.
  destruct s as [|a [|b [|c [|d post]]]]; cbn.
  - now destruct (xorb _ _).
  - destruct (xorb _ _); [|easy]. now destruct (eqc a "1"), (eqc a "2").
  - destruct (xorb _ _); [|easy].
    now destruct (eqc a "1"), (eqc a "2"), (eqc b "9"), (eqc b "0").
  - destruct (xorb _ _); [|easy].
    now destruct (eqc a "1"), (eqc a "2"), (eqc b "9"), (eqc b "0"), (isdecimal c).
  - rewrite !rep_zero.
    destruct (isdecimal c); [|now destruct (xorb _ _), (eqc a "1"), (eqc a "2"),
                                    (eqc b "9"), (eqc b "0"); rewrite ?andb_false_r].
    destruct (isdecimal d) eqn:D;
      [change (isword_opt (Some d)) with (isword d); rewrite (isdecimal_isword d D)
      |now destruct (xorb _ _), (eqc a "1"), (eqc a "2"),
                    (eqc b "9"), (eqc b "0"); rewrite ?andb_false_r].
    destruct (eqc a "1") eqn:A1, (eqc a "2") eqn:A2;
      try (apply eqc_eq in A1; subst a; try (vm_compute in A2; discriminate A2);
           rewrite isword_1);
      try (apply eqc_eq in A2; subst a; rewrite isword_2);
      destruct (isword_opt prev), (eqc b "9"), (eqc b "0"), (isword_opt (head post));
      cbn; try reflexivity; now destruct (isword _).
Qed.


Lemma prev_at_S prev c (s : str) j : prev_at prev (c :: s) (S j) = prev_at (Some c) s j.
Proof. unfold prev_at. cbn [take]. rewrite last_cons. now destruct (last (take j s)). Qed.

Lemma year_here_length prev (s : str) :
  year_here prev s = true -> s = take 4 s ++ drop 4 s /\ length (take 4 s) = 4.
Proof. destruct s as [|a [|b [|c [|d post]]]]; simpl; try discriminate. auto. Qed.

(** [re.search] with the year pattern finds the first year token. *)
Lemma search_from_year prev (s : str) :
  match search_from false re_year prev s false with
  | Some (pre, m, post) =>
      s = pre ++ m ++ post /\ m = take 4 (drop (length pre) s)
      /\ year_here (prev_at prev s (length pre)) (drop (length pre) s) = true
      /\ forall j, j < length pre -> year_here (prev_at prev s j) (drop j s) = false
  | None => forall j, year_here (prev_at prev s j) (drop j s) = false
  end.
Proof.
  revert prev. induction s as [|c s IH]; intros prev; cbn [search_from];
    rewrite match_at_year; destruct (year_here prev _) eqn:Y.
  - discriminate Y.
  - intros j. now rewrite drop_nil.
  - destruct (year_here_length _ _ Y) as [E L].
    assert (M : take (length (c :: s) - length (drop 4 (c :: s))) (c :: s)
                = take 4 (c :: s)).
    { rewrite E at 1 3. rewrite length_app, L.
      replace (4 + length (drop 4 (c :: s)) - length (drop 4 (c :: s))) with 4 by lia.
      rewrite <- L at 1. apply take_app_length. }
    rewrite M. repeat split; try assumption.
    intros j Hj. cbn in Hj. lia.
  - specialize (IH (Some c)).
    destruct (search_from false re_year (Some c) s false) as [[[pre m] post]|].
    + destruct IH as (E & M & H & Hmin). repeat split.
      * cbn. now rewrite <- E.
      * exact M.
      * cbn [length drop]. now rewrite prev_at_S.
      * intros [|j] Hj; [exact Y|]. cbn [drop]. rewrite prev_at_S.
        apply Hmin. cbn in Hj. lia.
    + intros [|j]; [exact Y|]. cbn [drop]. rewrite prev_at_S. apply IH.
Qed.

(** ** The filename parser *)

Lemma clean_title_sublist (t : str) : clean_title t `sublist_of` t.
Proof.
  unfold clean_title.
  etransitivity; [apply strip_sublist|].
  etransitivity; [apply sub_sublist|].
  etransitivity; [apply strip_sublist|].
  etransitivity; [apply strip_chars_sublist|].
  apply sub_sublist.
Qed.

(** No tag match starts at a character that is not white space. *)
Lemma match_at_tags_nonspace prev c (s : str) ma :
  isspace c = false -> match_at true re_tags prev (c :: s) ma = None.
Proof. intros H. unfold match_at, re_tags, plus. cbn. now rewrite H. Qed.

Lemma match_at_brackets_other prev c (s : str) ma :
  mem c (L "[]()") = false -> match_at false re_brackets prev (c :: s) ma = None.
Proof.
  intros H. unfold match_at, re_brackets. cbn [run item_match]. now rewrite H.
Qed.

(** The cleaning keeps a first character that is neither white space, nor a
    dash, nor a bracket. *)
Lemma clean_title_head c (t : str) :
  isspace c = false -> mem c (L " -[]()") = false ->
  exists t', clean_title (c :: t) = c :: t'.
Proof.
  intros Hs Hm. unfold clean_title.
  assert (Hb : mem c (L "[]()") = false).
  { revert Hm. cbn. intros H. repeat (apply orb_false_elim in H as [? H]).
    repeat (apply orb_false_intro; [assumption|]). reflexivity. }
  destruct (sub_head true re_tags [] c t) as [t1 ->].
  { intros prev ma. now apply match_at_tags_nonspace. }
  destruct (strip_chars_head (L " -[]()") c t1 Hm) as [t2 ->].
  destruct (strip_head c t2 Hs) as [t3 ->].
  destruct (sub_head false re_brackets [] c t3) as [t4 ->].
  { intros prev ma. now apply match_at_brackets_other. }
  now apply strip_head.
Qed.

(** C1, as the code has it: [parse_movie_name] returns the cleaned provisional
    title and has no fallback to the provisional title.  The title is not
    empty whenever the provisional title begins with a character that is
    neither white space, nor a dash, nor a bracket: that character is then the
    first one of the title. *)
Theorem parse_title_nonempty (filename : str) (c : ascii) (rest : str) :
  fst (provisional (stripped_name filename)) = c :: rest ->
  isspace c = false ->
  mem c (L " -[]()") = false ->
  fst (parse_movie_name filename) = clean_title (c :: rest)
  /\ exists t, fst (parse_movie_name filename) = c :: t.
Proof.
  intros Hp Hs Hm. unfold parse_movie_name.
  destruct (provisional (stripped_name filename)) as [title year].
  cbn [fst] in *. subst title. split; [reflexivity|].
  now apply clean_title_head.
Qed.

Lemma parse_title_nonempty_witness :
  let f := L "The.Matrix.1999.1080p.BluRay.x264.mkv" in
  fst (provisional (stripped_name f)) = "T"%char :: L "he Matrix"
  /\ isspace "T" = false
  /\ mem "T"%char (L " -[]()") = false
  /\ fst (parse_movie_name f) = clean_title ("T"%char :: L "he Matrix")
  /\ exists t, fst (parse_movie_name f) = "T"%char :: t.
Proof.
  assert (H1 : fst (provisional (stripped_name (L "The.Matrix.1999.1080p.BluRay.x264.mkv")))
               = "T"%char :: L "he Matrix") by (vm_compute; reflexivity).
  assert (H2 : isspace "T" = false) by reflexivity.
  assert (H3 : mem "T"%char (L " -[]()") = false) by reflexivity.
  split; [exact H1 | split; [exact H2 | split; [exact H3|]]].
  exact (parse_title_nonempty _ _ _ H1 H2 H3).
Defined.

(** C1 fails on the code: the tag stripping removes the whole provisional
    title of [_1080p.mkv], and the empty title is returned, not the
    provisional one. *)
Lemma parse_title_empty :
  fst (provisional (stripped_name (L "_1080p.mkv"))) = L " 1080p"
  /\ parse_movie_name (L "_1080p.mkv") = ([], None).
Proof. split; vm_compute; reflexivity. Qed.

Lemma prev_at_None (s : str) j : prev_at None s j = last (take j s).
Proof. unfold prev_at. now destruct (last (take j s)). Qed.

(** C3: when the stripped name holds a standalone year token, the year
    returned is the first such token, and the title is made of characters of
    the text before that token only. *)
Theorem parse_year_token (filename : str) (i : nat) :
  year_token_at (stripped_name filename) i = true ->
  exists i0,
    i0 <= i
    /\ year_token_at (stripped_name filename) i0 = true
    /\ (forall j, j < i0 -> year_token_at (stripped_name filename) j = false)
    /\ snd (parse_movie_name filename)
       = Some (take 4 (drop i0 (stripped_name filename)))
    /\ fst (parse_movie_name filename) `sublist_of` take i0 (stripped_name filename).
Proof.
  intros Hi. unfold parse_movie_name, provisional, search.
  pose proof (search_from_year None (stripped_name filename)) as S.
  destruct (search_from false re_year None (stripped_name filename) false)
    as [[[pre m] post]|].
  - destruct S as (E & M & H & Hmin). exists (length pre). cbn [fst snd].
    repeat split.
    + destruct (le_lt_dec (length pre) i) as [|Hlt]; [assumption|].
      apply Hmin in Hlt. unfold year_token_at in Hi. congruence.
    + exact H.
    + exact Hmin.
    + now rewrite M.
    + rewrite E, take_app_length.
      etransitivity; [apply clean_title_sublist | apply strip_sublist].
  - unfold year_token_at in Hi. rewrite S in Hi. discriminate.
Qed.

Lemma parse_year_token_witness :
  let f := L "The.Matrix.1999.1080p.BluRay.x264.mkv" in
  year_token_at (stripped_name f) 11 = true
  /\ exists i0,
       i0 <= 11
       /\ year_token_at (stripped_name f) i0 = true
       /\ (forall j, j < i0 -> year_token_at (stripped_name f) j = false)
       /\ snd (parse_movie_name f) = Some (take 4 (drop i0 (stripped_name f)))
       /\ fst (parse_movie_name f) `sublist_of` take i0 (stripped_name f).
Proof.
  assert (H : year_token_at (stripped_name (L "The.Matrix.1999.1080p.BluRay.x264.mkv")) 11
              = true) by (vm_compute; reflexivity).
  split; [exact H|].
  exact (parse_year_token _ 11 H).
Defined.

(** C9: the year returned is absent, or [19] or [20] followed by two decimal
    digits. *)
Theorem parse_year_shape (filename : str) :
  snd (parse_movie_name filename) = None
  \/ exists c d,
       isdecimal c = true /\ isdecimal d = true
       /\ (snd (parse_movie_name filename) = Some (L "19" ++ [c; d])
           \/ snd (parse_movie_name filename) = Some (L "20" ++ [c; d])).
Proof.
  unfold parse_movie_name, provisional, search.
  pose proof (search_from_year None (stripped_name filename)) as S.
  destruct (search_from false re_year None (stripped_name filename) false)
    as [[[pre m] post]|]; cbn [snd]; [right | now left].
  destruct S as (_ & -> & H & _).
  destruct (drop (length pre) (stripped_name filename))
    as [|a [|b [|c [|d rest]]]]; try discriminate H.
  cbn [year_here] in H.
  repeat (apply andb_true_iff in H as [H ?]).
  exists c, d. repeat split; try assumption.
  apply orb_true_iff in H as [H|H]; apply eqs_eq in H; injection H as -> ->;
    [left | right]; reflexivity.
Qed.

(** ** The filename parser on examples *)

Example sub_dots : sub false re_dots (L " ") (L "a.b_c.d") = L "a b c d".
Proof. reflexivity. Qed.

Example sub_tags_once :
  sub true re_tags [] (L "Heat  WEB-DL x264 web") = L "Heat".
Proof. vm_compute. reflexivity. Qed.

Example search_year_first :
  search false re_year (L "Blade Runner 2049 2017 x") 
  = Some (L "Blade Runner ", L "2049", L " 2017 x").
Proof. vm_compute. reflexivity. Qed.

Example parse_year_only : parse_movie_name (L "1999.mkv") = ([], Some (L "1999")).
Proof. vm_compute. reflexivity. Qed.

Example parse_matrix :
  parse_movie_name (L "The.Matrix.1999.1080p.BluRay.x264.mkv")
  = (L "The Matrix", Some (L "1999")).
Proof. vm_compute. reflexivity. Qed.

Example parse_no_year :
  parse_movie_name (L "Some_Movie [Directors Cut] WEB-DL.mp4")
  = (L "Some Movie Directors Cut", None).
Proof. vm_compute. reflexivity. Qed.

(** ** The crawler *)

Lemma join_nonempty sep (x : str) (xs : list str) : x <> [] -> join sep (x :: xs) <> [].
Proof. destruct x; [easy|]. now destruct xs. Qed.

Section CrawlerFacts.
Variable BASE_URL : str.
Variable fetch : nat -> str -> option (list str).
Variable urljoin : str -> str -> str.
Variable unquote : str -> str.

Local Abbreviation crawl' := (crawl BASE_URL fetch urljoin unquote).
Local Abbreviation crawl_links' := (crawl_links BASE_URL urljoin unquote).

(** An invariant [Q] of the arguments of the recursive calls gives a
    property [P] of every entry found. *)
Section Invariant.
Variable Q : nat -> list str -> Prop.
Variable P : entry -> Prop.
Hypothesis Q_folder : forall depth parts name,
  Q depth parts -> mem_str name SKIP_FOLDERS = false ->
  Q (depth + 1) (new_parts depth parts name).
Hypothesis P_file : forall depth parts full_url name,
  Q depth parts ->
  startswith BASE_URL full_url = true ->
  mem_str (lower (Pathlib.suffix name)) VIDEO_EXTENSIONS = true ->
  P (Entry full_url name (category_of parts)).

Lemma crawl_links_inv self url depth parts links results t files t' :
  (forall u d ps t0 fs t1, Q d ps -> self u d ps t0 = Some (fs, t1) -> Forall P fs) ->
  Q depth parts -> Forall P results ->
  crawl_links' self url depth parts links results t = Some (files, t') ->
  Forall P files.
Proof.
  intros Hself HQ. revert results t.
  induction links as [|link links IH]; intros results t Hres; cbn [crawl_links].
  - now intros [= <- <-].
  - destruct (skipped_link _ _); [now apply IH|].
    destruct (startswith BASE_URL _) eqn:Hbase; cbn [negb]; [|now apply IH].
    destruct (endswith _ _).
    + destruct (mem_str _ SKIP_FOLDERS) eqn:Hskip; [now apply IH|].
      destruct (self _ _ _ _) as [[found t1]|] eqn:Hrec; [|easy].
      apply IH, Forall_app. split; [assumption|].
      eapply Hself; [|exact Hrec]. now apply Q_folder.
    + destruct (mem_str _ VIDEO_EXTENSIONS) eqn:Hext; cbn [negb]; [|now apply IH].
      apply IH, Forall_app. split; [assumption|].
      constructor; [|constructor]. now apply (P_file depth).
Qed.

Lemma crawl_inv fuel url depth parts t files t' :
  Q depth parts -> crawl' fuel url depth parts t = Some (files, t') -> Forall P files.
Proof.
  revert url depth parts t files t'.
  induction fuel as [|fuel IH]; intros url depth parts t files t' HQ; cbn; [easy|].
  destruct (fetch t url) as [links|]; [|now intros [= <- <-]].
  apply crawl_links_inv; auto.
Qed.
End Invariant.

Local Abbreviation crawl_traced' := (crawl_traced BASE_URL fetch urljoin unquote).
Local Abbreviation crawl_links_traced' := (crawl_links_traced BASE_URL urljoin unquote).

(** A folder link anywhere in a page: the links before it, then the crawl of
    the folder one level down, then the links after it under the category
    path the page was crawled with. *)
Lemma crawl_links_folder self url depth parts links1 link links2 results t :
  folder_link BASE_URL urljoin unquote url link = true ->
  crawl_links' self url depth parts (links1 ++ link :: links2) results t
  = match crawl_links' self url depth parts links1 results t with
    | Some (before, t1) =>
        match self (urljoin url (strip link)) (depth + 1)
                   (new_parts depth parts (unquote (rstrip_chars (L "/") (strip link))))
                   t1 with
        | Some (found, t2) =>
            crawl_links' self url depth parts links2 (before ++ found) t2
        | None => None
        end
    | None => None
    end.
Proof.
  intros Hl. unfold folder_link in Hl.
  apply andb_true_iff in Hl as [Hl Hskip]. apply andb_true_iff in Hl as [Hl Hend].
  apply andb_true_iff in Hl as [Hl Hbase].
  apply negb_true_iff in Hl. apply negb_true_iff in Hskip.
  revert results t. induction links1 as [|l links1 IH]; intros results t.
  - cbn [app crawl_links]. now rewrite Hl, Hbase, Hend, Hskip.
  - cbn [app crawl_links].
    destruct (skipped_link _ (strip l)); [apply IH|].
    destruct (negb (startswith BASE_URL (urljoin url (strip l)))); [apply IH|].
    destruct (endswith _ (strip l)).
    + destruct (mem_str (unquote (rstrip_chars (L "/") (strip l))) SKIP_FOLDERS);
        [apply IH|].
      destruct (self (urljoin url (strip l)) _ _ _) as [[found t1]|];
        [apply IH | reflexivity].
    + destruct (negb (mem_str (lower (Pathlib.suffix _)) VIDEO_EXTENSIONS)); apply IH.
Qed.

(** Without the ways, the traced crawl is the crawl. *)
Lemma crawl_links_traced_erase selfT self url depth parts path links results t :
  (forall u d ps pa t0, option_map erase (selfT u d ps pa t0) = self u d ps t0) ->
  option_map erase (crawl_links_traced' selfT url depth parts path links results t)
  = crawl_links' self url depth parts links (map fst results) t.
Proof.
  intros Hs. revert results t.
  induction links as [|l links IH]; intros results t;
    cbn [crawl_links crawl_links_traced]; [reflexivity|].
  destruct (skipped_link _ _); [apply IH|].
  destruct (negb (startswith BASE_URL _)); [apply IH|].
  destruct (endswith _ _).
  - destruct (mem_str _ SKIP_FOLDERS); [apply IH|].
    rewrite <- (Hs _ _ _ (path ++ [unquote (rstrip_chars (L "/") (strip l))]) t).
    destruct (selfT _ _ _ _ _) as [[found t1]|]; [|reflexivity].
    cbn [option_map erase fst snd]. rewrite IH. now rewrite map_app.
  - destruct (negb (mem_str _ VIDEO_EXTENSIONS)); [apply IH|].
    rewrite IH. now rewrite map_app.
Qed.

Lemma crawl_traced_erase fuel url depth parts path t :
  option_map erase (crawl_traced' fuel url depth parts path t)
  = crawl' fuel url depth parts t.
Proof.
  revert url depth parts path t.
  induction fuel as [|fuel IH]; intros url depth parts path t;
    cbn [crawl crawl_traced]; [reflexivity|].
  destruct (fetch t url) as [links|]; [|reflexivity].
  now apply crawl_links_traced_erase.
Qed.

Lemma crawl_traced_of_crawl fuel url depth parts path t files t' :
  crawl' fuel url depth parts t = Some (files, t') ->
  exists traced,
    crawl_traced' fuel url depth parts path t = Some (traced, t')
    /\ map fst traced = files.
Proof.
  rewrite <- (crawl_traced_erase fuel url depth parts path t).
  destruct (crawl_traced' fuel url depth parts path t) as [[traced t1]|]; [|discriminate].
  cbn. intros [= <- <-]. now exists traced.
Qed.

Lemma category_on_folder depth parts path name x :
  category_on (depth + 1) (new_parts depth parts name) (path ++ [name]) x ->
  category_on depth parts path x.
Proof.
  unfold category_on, new_parts. intros [[rest Hp] Hc]. rewrite Hp in *. split.
  - exists ([name] ++ rest). now rewrite <- app_assoc.
  - rewrite Hc. rewrite drop_app_length.
    rewrite <- app_assoc, drop_app_length. cbn [app].
    destruct (Nat.ltb_spec depth MAX_CATEGORY_DEPTH) as [Hd|Hd].
    + replace (MAX_CATEGORY_DEPTH - depth) with (S (MAX_CATEGORY_DEPTH - (depth + 1)))
        by lia.
      cbn [take]. now rewrite <- app_assoc.
    + replace (MAX_CATEGORY_DEPTH - depth) with 0 by lia.
      replace (MAX_CATEGORY_DEPTH - (depth + 1)) with 0 by lia.
      now rewrite !take_0.
Qed.

Lemma crawl_links_traced_category selfT url depth parts path links results t traced t' :
  (forall u d ps pa t0 r t1,
      selfT u d ps pa t0 = Some (r, t1) -> Forall (category_on d ps pa) r) ->
  Forall (category_on depth parts path) results ->
  crawl_links_traced' selfT url depth parts path links results t = Some (traced, t') ->
  Forall (category_on depth parts path) traced.
Proof.
  intros Hs. revert results t.
  induction links as [|l links IH]; intros results t Hres; cbn [crawl_links_traced].
  - now intros [= <- <-].
  - destruct (skipped_link _ _); [now apply IH|].
    destruct (negb (startswith BASE_URL _)); [now apply IH|].
    destruct (endswith _ _).
    + destruct (mem_str _ SKIP_FOLDERS); [now apply IH|].
      destruct (selfT _ _ _ _ _) as [[found t1]|] eqn:E; [|discriminate].
      apply IH, Forall_app. split; [assumption|].
      apply Hs in E. eapply Forall_impl; [exact E|].
      intros x. apply category_on_folder.
    + destruct (negb (mem_str _ VIDEO_EXTENSIONS)); [now apply IH|].
      apply IH, Forall_app. split; [assumption|].
      constructor; [|constructor]. split; [reflexivity|].
      cbn [fst snd category]. now rewrite drop_all, take_nil, app_nil_r.
Qed.

Lemma crawl_traced_category fuel url depth parts path t traced t' :
  crawl_traced' fuel url depth parts path t = Some (traced, t') ->
  Forall (category_on depth parts path) traced.
Proof.
  revert url depth parts path t traced t'.
  induction fuel as [|fuel IH]; intros url depth parts path t traced t';
    cbn [crawl_traced]; [discriminate|].
  destruct (fetch t url) as [links|]; [|intros [= <- <-]; constructor].
  apply crawl_links_traced_category; [|constructor].
  intros u d ps pa t0 r t1. apply IH.
Qed.

(** C5: a folder found at [depth], wherever its link stands in the page, is
    crawled at [depth + 1] under the category path extended by its decoded
    name exactly when [depth < MAX_CATEGORY_DEPTH] and under the unchanged
    path otherwise; the links after it are handled under the path the page
    was crawled with.  For every entry found, with [way] the names of all the
    folders gone through to reach it, the category is that of the given path
    followed by the first [MAX_CATEGORY_DEPTH - depth] names of the way.  For
    the call [crawl(url)] of the main block it is the category of the first
    [MAX_CATEGORY_DEPTH] names of the way, however long the way is. *)
Theorem crawl_category_depth (fuel : nat) (url : str) (t : nat) :
  (forall depth parts links1 link links2,
      fetch t url = Some (links1 ++ link :: links2) ->
      folder_link BASE_URL urljoin unquote url link = true ->
      let name := unquote (rstrip_chars (L "/") (strip link)) in
      crawl' (S fuel) url depth parts t
      = match crawl_links' (crawl' fuel) url depth parts links1 [] (S t) with
        | Some (before, t1) =>
            match crawl' fuel (urljoin url (strip link)) (depth + 1)
                         (if decide (depth < MAX_CATEGORY_DEPTH)
                          then parts ++ [name] else parts) t1 with
            | Some (found, t2) =>
                crawl_links' (crawl' fuel) url depth parts links2 (before ++ found) t2
            | None => None
            end
        | None => None
        end)
  /\ (forall depth parts path files t',
         crawl' fuel url depth parts t = Some (files, t') ->
         exists traced,
           crawl_traced' fuel url depth parts path t = Some (traced, t')
           /\ map fst traced = files
           /\ Forall (fun x =>
                        path `prefix_of` snd x
                        /\ category (fst x)
                           = category_of
                               (parts ++ take (MAX_CATEGORY_DEPTH - depth)
                                              (drop (length path) (snd x))))
                     traced)
  /\ (forall files t',
         crawl' fuel url 0 [] t = Some (files, t') ->
         exists traced,
           crawl_traced' fuel url 0 [] [] t = Some (traced, t')
           /\ map fst traced = files
           /\ Forall (fun x =>
                        category (fst x)
                        = category_of (take MAX_CATEGORY_DEPTH (snd x))
                        /\ length (take MAX_CATEGORY_DEPTH (snd x))
                           <= MAX_CATEGORY_DEPTH)
                     traced).
Proof.
  repeat split.
  - intros depth parts links1 link links2 Hf Hl name. cbn [crawl]. rewrite Hf.
    rewrite (crawl_links_folder _ _ _ _ _ _ _ _ _ Hl). unfold new_parts. fold name.
    destruct (Nat.ltb_spec depth MAX_CATEGORY_DEPTH); case_decide; (reflexivity || lia).
  - intros depth parts path files t' H.
    destruct (crawl_traced_of_crawl _ _ _ _ path _ _ _ H) as (traced & Ht & Hm).
    exists traced. repeat split; try assumption.
    exact (crawl_traced_category _ _ _ _ _ _ _ _ Ht).
  - intros files t' H.
    destruct (crawl_traced_of_crawl _ _ _ _ [] _ _ _ H) as (traced & Ht & Hm).
    exists traced. repeat split; try assumption.
    eapply Forall_impl; [exact (crawl_traced_category _ _ _ _ _ _ _ _ Ht)|].
    intros x [_ Hc]. split.
    + rewrite Hc. cbn [length drop app]. now rewrite Nat.sub_0_r.
    + rewrite length_take. lia.
Qed.

(** C10: every entry found has a URL under the base URL, a file name whose
    lowercased suffix is a video extension, and a category that is not
    empty: ["Movies"] for an empty category path, the joined path
    otherwise.  The names of the given path must not be empty, as in the
    call [crawl(url)] of the main block. *)
Theorem crawl_entries_wellformed (fuel : nat) (page : str) (depth : nat)
        (parts : list str) (t : nat) (files : list entry) (t' : nat) :
  Forall (fun p => p <> []) parts ->
  crawl' fuel page depth parts t = Some (files, t') ->
  Forall (fun e =>
            startswith BASE_URL (url e) = true
            /\ mem_str (lower (Pathlib.suffix (filename e))) VIDEO_EXTENSIONS = true
            /\ category e <> []
            /\ exists parts',
                 category e = match parts' with
                              | [] => L "Movies"
                              | _ :: _ => join (L " > ") parts'
                              end)
         files.
Proof.
  intros Hparts.
  apply (crawl_inv (fun _ ps => Forall (fun p => p <> []) ps)); [| |assumption].
  - intros d ps name Hps Hskip. unfold new_parts.
    destruct (d <? MAX_CATEGORY_DEPTH)%nat; [|assumption].
    apply Forall_app. split; [assumption|]. constructor; [|constructor].
    intros ->. discriminate Hskip.
  - intros d ps full_url name Hps Hbase Hext. cbn [url filename category].
    repeat split; try assumption.
    + destruct Hps as [|p ps Hp _]; [discriminate|]. cbn [category_of].
      now apply join_nonempty.
    + exists ps. reflexivity.
Qed.
End CrawlerFacts.

Example demo_crawl : Demo.crawl 5 Demo.BASE_URL 0 [] 0 = Some (Demo.found, 4).
Proof. vm_compute. reflexivity. Qed.

Lemma crawl_category_depth_witness :
  let traced :=
    [ (Entry (L "http://h/Action/2020/HD/c.avi") (L "c.avi") (L "Action > 2020"),
       [L "Action"; L "2020"; L "HD"]);
      (Entry (L "http://h/Action/b.MP4") (L "b.MP4") (L "Action"), [L "Action"]);
      (Entry (L "http://h/a.mkv") (L "a.mkv") (L "Movies"), []) ] in
  (Demo.fetch 0 Demo.BASE_URL = Some ([L "../"] ++ L "Action/" :: [L "a.mkv"])
   /\ folder_link Demo.BASE_URL Demo.urljoin Demo.unquote Demo.BASE_URL (L "Action/") = true
   /\ Demo.crawl 5 Demo.BASE_URL 0 [] 0
      = match crawl_links Demo.BASE_URL Demo.urljoin Demo.unquote (Demo.crawl 4)
                          Demo.BASE_URL 0 [] [L "../"] [] 1 with
        | Some (before, t1) =>
            match Demo.crawl 4 (L "http://h/Action/") 1 [L "Action"] t1 with
            | Some (found, t2) =>
                crawl_links Demo.BASE_URL Demo.urljoin Demo.unquote (Demo.crawl 4)
                            Demo.BASE_URL 0 [] [L "a.mkv"] (before ++ found) t2
            | None => None
            end
        | None => None
        end)
  /\ Demo.crawl 5 Demo.BASE_URL 0 [] 0 = Some (Demo.found, 4)
  /\ Demo.crawl_traced 5 Demo.BASE_URL 0 [] [] 0 = Some (traced, 4)
  /\ Forall (fun x =>
               category (fst x) = category_of (take MAX_CATEGORY_DEPTH (snd x))
               /\ length (take MAX_CATEGORY_DEPTH (snd x)) <= MAX_CATEGORY_DEPTH)
            traced.
Proof.
  intros traced.
  pose proof (crawl_category_depth Demo.BASE_URL Demo.fetch Demo.urljoin Demo.unquote)
    as T.
  assert (H1 : Demo.fetch 0 Demo.BASE_URL
               = Some ([L "../"] ++ L "Action/" :: [L "a.mkv"]))
    by (vm_compute; reflexivity).
  assert (H2 : folder_link Demo.BASE_URL Demo.urljoin Demo.unquote
                           Demo.BASE_URL (L "Action/") = true)
    by (vm_compute; reflexivity).
  assert (H3 : Demo.crawl 5 Demo.BASE_URL 0 [] 0 = Some (Demo.found, 4))
    by (vm_compute; reflexivity).
  assert (H4 : Demo.crawl_traced 5 Demo.BASE_URL 0 [] [] 0 = Some (traced, 4))
    by (vm_compute; reflexivity).
  split; [split; [exact H1 | split; [exact H2|]] | split; [exact H3 | split; [exact H4|]]].
  - exact (proj1 (T 4 Demo.BASE_URL 0) 0 [] [L "../"] (L "Action/") [L "a.mkv"] H1 H2).
  - destruct (proj2 (proj2 (T 5 Demo.BASE_URL 0)) Demo.found 4 H3)
      as (traced' & Ht & _ & HF).
    unfold Demo.crawl_traced in H4. rewrite H4 in Ht. injection Ht as <-. exact HF.
Defined.

Lemma crawl_entries_wellformed_witness :
  Forall (fun p : str => p <> []) []
  /\ Demo.crawl 5 Demo.BASE_URL 0 [] 0 = Some (Demo.found, 4)
  /\ Forall (fun e =>
               startswith Demo.BASE_URL (url e) = true
               /\ mem_str (lower (Pathlib.suffix (filename e))) VIDEO_EXTENSIONS = true
               /\ category e <> []
               /\ exists parts',
                    category e = match parts' with
                                 | [] => L "Movies"
                                 | _ :: _ => join (L " > ") parts'
                                 end)
            Demo.found.
Proof.
  assert (H1 : Forall (fun p : str => p <> []) []) by constructor.
  assert (H2 : Demo.crawl 5 Demo.BASE_URL 0 [] 0 = Some (Demo.found, 4))
    by (vm_compute; reflexivity).
  split; [exact H1 | split; [exact H2|]].
  exact (crawl_entries_wellformed Demo.BASE_URL Demo.fetch Demo.urljoin Demo.unquote
                                  5 Demo.BASE_URL 0 [] 0 Demo.found 4 H1 H2).
Defined.

(** ** The metadata lookup *)

Section TmdbFacts.
Variable api : nat -> params -> response.

Local Abbreviation tmdb_search' := (tmdb_search api).
Local Abbreviation attempts' := (attempts api).

(** The retry loop sends between one and [n] copies of the request and
    leaves the cache alone. *)
Lemma attempts_requests n p st :
  exists k, k <= n /\ (0 < n -> 0 < k)
    /\ requests (snd (attempts' n p st)) = requests st ++ replicate k p
    /\ cache (snd (attempts' n p st)) = cache st.
Proof.
  revert st. induction n as [|n IH]; intros st; cbn [attempts].
  - exists 0. cbn. rewrite app_nil_r. repeat split; lia.
  - unfold send. destruct (api _ p).
    + destruct (IH {| cache := cache st; requests := requests st ++ [p] |})
        as (k & Hk & _ & Hr & Hc).
      exists (S k). repeat split; [lia | lia | |exact Hc].
      rewrite Hr. cbn [requests replicate]. now rewrite <- app_assoc.
    + exists 1. cbn. repeat split; lia.
Qed.

Lemma attempts_cache n p st : cache (snd (attempts' n p st)) = cache st.
Proof. destruct (attempts_requests n p st) as (k & _ & _ & _ & H). exact H. Qed.

Lemma attempts_length n p st :
  length (requests (snd (attempts' n p st))) <= length (requests st) + n.
Proof.
  destruct (attempts_requests n p st) as (k & Hk & _ & H & _).
  rewrite H, length_app, length_replicate. lia.
Qed.

(** Without a year the body never calls itself. *)
Lemma tmdb_search_body_None self self' title st :
  tmdb_search_body api self title None st = tmdb_search_body api self' title None st.
Proof.
  unfold tmdb_search_body. cbn [truthy_opt].
  destruct (cache st !! _); [reflexivity|].
  destruct (attempts' _ _ _) as [[[|m rs]|] st']; reflexivity.
Qed.

(** [tmdb_search] satisfies the recursive equation of the source. *)
Lemma tmdb_search_unfold title year st :
  tmdb_search' title year st = tmdb_search_body api tmdb_search' title year st.
Proof.
  unfold tmdb_search at 1. unfold tmdb_search_body at 1 3.
  destruct (cache st !! _); [reflexivity|].
  destruct (attempts' _ _ _) as [[[|m rs]|] st']; reflexivity.
Qed.

(** A cache hit: the stored outcome, no request, the state as it was. *)
Lemma tmdb_search_hit title year st v :
  cache st !! cache_key title year = Some v -> tmdb_search' title year st = (v, st).
Proof. intros H. rewrite tmdb_search_unfold. unfold tmdb_search_body. now rewrite H. Qed.

(** C2, as the code has it: when the first call does not end through the
    year-less retry, it sends at most three requests and stores its outcome
    under the key of [(title, year)]; a second call with the same pair is
    then a cache hit: the same outcome, no request, the state unchanged. *)
Theorem tmdb_search_twice (title : str) (year : option str) (st : tmdb_state) :
  takes_fallback api title year st = false ->
  let r := tmdb_search' title year st in
  cache (snd r) !! cache_key title year = Some (fst r)
  /\ tmdb_search' title year (snd r) = r
  /\ length (requests (snd r)) <= length (requests st) + 3.
Proof.
  intros H r.
  assert (G : cache (snd r) !! cache_key title year = Some (fst r)
              /\ length (requests (snd r)) <= length (requests st) + 3).
  { subst r. rewrite tmdb_search_unfold. revert H.
    unfold takes_fallback, tmdb_search_body.
    destruct (cache st !! cache_key title year) as [v|] eqn:Hc.
    - intros _. cbn [fst snd]. split; [assumption | lia].
    - pose proof (attempts_length 3 (search_params title year) st) as Hl.
      destruct (attempts' 3 _ st) as [[[|m rs]|] st']; cbn [fst snd] in *.
      + destruct (truthy_opt year); [discriminate|]. intros _.
        cbn [fst snd store cache requests]. now rewrite lookup_insert_eq.
      + intros _. cbn [fst snd store cache requests]. now rewrite lookup_insert_eq.
      + intros _. cbn [fst snd store cache requests]. now rewrite lookup_insert_eq. }
  destruct G as [G1 G2]. repeat split; try assumption.
  rewrite (tmdb_search_hit _ _ _ _ G1). now destruct r.
Qed.

(** C6, as the code has it: when a year was supplied, the cache has no
    entry for the pair and the filtered search succeeds with no result, the
    call is exactly one recursive call for the same title without a year.
    That call answers from the cache when the year-less pair is stored, with
    no search; otherwise it makes one year-less search of one to three
    requests for the same title, and the outcome is a no-match exactly when
    that search fails three times or succeeds with no result. *)
Theorem tmdb_search_fallback (title : str) (year : option str)
        (st st1 : tmdb_state) :
  truthy_opt year = true ->
  cache st !! cache_key title year = None ->
  attempts' 3 (search_params title year) st = (Some [], st1) ->
  tmdb_search' title year st = tmdb_search' title None st1
  /\ match cache st1 !! cache_key title None with
     | Some v => tmdb_search' title year st = (v, st1)
     | None =>
         let p := {| query := title; primary_release_year := None |} in
         let a := attempts' 3 p st1 in
         (exists n, 1 <= n <= 3
                    /\ requests (snd a) = requests st1 ++ replicate n p)
         /\ requests (snd (tmdb_search' title year st)) = requests (snd a)
         /\ (fst (tmdb_search' title year st) = None
             <-> fst a = None \/ fst a = Some [])
     end.
Proof.
  intros Hy Hc Ha.
  assert (E : tmdb_search' title year st = tmdb_search' title None st1).
  { rewrite tmdb_search_unfold. unfold tmdb_search_body. now rewrite Hc, Ha, Hy. }
  split; [exact E|]. rewrite E.
  destruct (cache st1 !! cache_key title None) as [v|] eqn:Hn.
  - now apply tmdb_search_hit.
  - intros p a. split.
    + destruct (attempts_requests 3 p st1) as (k & Hk & Hpos & Hr & _).
      exists k. split; [lia | exact Hr].
    + rewrite tmdb_search_unfold. unfold tmdb_search_body. rewrite Hn.
      change (search_params title None) with p. fold a.
      destruct a as [[[|m rs]|] st2]; cbn; split; try reflexivity.
      * split; auto.
      * split; [discriminate | intros [|]; discriminate].
      * split; auto.
Qed.
End TmdbFacts.

Lemma tmdb_search_twice_witness :
  let r := tmdb_search Demo.api_flaky (L "The Matrix") None empty_state in
  takes_fallback Demo.api_flaky (L "The Matrix") None empty_state = false
  /\ cache (snd r) !! cache_key (L "The Matrix") None = Some (fst r)
  /\ tmdb_search Demo.api_flaky (L "The Matrix") None (snd r) = r
  /\ length (requests (snd r)) <= length (requests empty_state) + 3.
Proof.
  assert (H : takes_fallback Demo.api_flaky (L "The Matrix") None empty_state = false)
    by (vm_compute; reflexivity).
  split; [exact H|].
  exact (tmdb_search_twice Demo.api_flaky (L "The Matrix") None empty_state H).
Defined.

Lemma tmdb_search_fallback_witness :
  let title := L "Unknown Movie Xyz" in
  let year := Some (L "1999") in
  let st1 := {| cache := ∅; requests := [search_params title year] |} in
  let p := {| query := title; primary_release_year := None |} in
  truthy_opt year = true
  /\ cache empty_state !! cache_key title year = None
  /\ attempts Demo.api_empty 3 (search_params title year) empty_state = (Some [], st1)
  /\ tmdb_search Demo.api_empty title year empty_state
     = tmdb_search Demo.api_empty title None st1
  /\ match cache st1 !! cache_key title None with
     | Some v => tmdb_search Demo.api_empty title year empty_state = (v, st1)
     | None =>
         (exists n, 1 <= n <= 3
                    /\ requests (snd (attempts Demo.api_empty 3 p st1))
                       = requests st1 ++ replicate n p)
         /\ requests (snd (tmdb_search Demo.api_empty title year empty_state))
            = requests (snd (attempts Demo.api_empty 3 p st1))
         /\ (fst (tmdb_search Demo.api_empty title year empty_state) = None
             <-> fst (attempts Demo.api_empty 3 p st1) = None
                 \/ fst (attempts Demo.api_empty 3 p st1) = Some [])
     end.
Proof.
  intros title year st1 p.
  assert (H1 : truthy_opt year = true) by reflexivity.
  assert (H2 : cache empty_state !! cache_key title year = None) by reflexivity.
  assert (H3 : attempts Demo.api_empty 3 (search_params title year) empty_state
               = (Some [], st1)) by reflexivity.
  split; [exact H1 | split; [exact H2 | split; [exact H3|]]].
  exact (tmdb_search_fallback Demo.api_empty title year empty_state st1 H1 H2 H3).
Defined.

(** C2 fails on the code: the service fails once and then answers; the first
    of two calls for the same pair sends two requests. *)
Lemma tmdb_search_two_requests :
  let r1 := tmdb_search Demo.api_flaky (L "The Matrix") None empty_state in
  let r2 := tmdb_search Demo.api_flaky (L "The Matrix") None (snd r1) in
  length (requests (snd r2)) = 2 /\ ~ length (requests (snd r2)) <= 1.
Proof. vm_compute. split; [reflexivity | lia]. Qed.

(** The outcome of the year-less retry is stored under the year-less key
    only: the second call for the same pair with a year searches again. *)
Example tmdb_fallback_not_stored :
  let r1 := tmdb_search Demo.api_empty (L "Unknown Movie Xyz") (Some (L "1999")) empty_state in
  let r2 := tmdb_search Demo.api_empty (L "Unknown Movie Xyz") (Some (L "1999")) (snd r1) in
  fst r1 = None /\ fst r2 = None
  /\ length (requests (snd r1)) = 2 /\ length (requests (snd r2)) = 3.
Proof. vm_compute. repeat split. Qed.

(** C6 fails on the code: after a call for the title without a year, the
    call with a year sends its filtered request, which finds nothing, and no
    year-less request: the stored year-less outcome is returned. *)
Lemma tmdb_fallback_from_cache :
  let st := snd (tmdb_search Demo.api_yearless (L "The Matrix") None empty_state) in
  let r := tmdb_search Demo.api_yearless (L "The Matrix") (Some (L "1998")) st in
  requests st = [ {| query := L "The Matrix"; primary_release_year := None |} ]
  /\ requests (snd r)
     = requests st
       ++ [ {| query := L "The Matrix"; primary_release_year := Some (L "1998") |} ]
  /\ fst r = Some (make_info (L "The Matrix") None Demo.the_matrix).
Proof. vm_compute. repeat split. Qed.

(** ** The order of the playlist *)

Lemma code_inj (x y : ascii) : code x = code y -> x = y.
Proof. intros H. apply eqc_eq. unfold eqc. now apply N.eqb_eq. Qed.

Lemma str_lt_irrefl (a : str) : str_lt a a = false.
Proof.
  induction a as [|x a IH]; [reflexivity|]. cbn.
  now rewrite N.ltb_irrefl, N.eqb_refl, IH.
Qed.

Lemma str_lt_trans (a b c : str) :
  str_lt a b = true -> str_lt b c = true -> str_lt a c = true.
Proof.
  revert b c. induction a as [|x a IH]; intros [|y b] [|z c]; cbn; try easy.
  destruct (N.ltb_spec (code x) (code y)), (N.ltb_spec (code y) (code z)),
    (N.ltb_spec (code x) (code z)), (N.eqb_spec (code x) (code y)),
    (N.eqb_spec (code y) (code z)), (N.eqb_spec (code x) (code z));
    cbn; try easy; try lia.
  apply IH.
Qed.

Lemma str_lt_total (a b : str) : str_lt a b = false -> str_lt b a = false -> a = b.
Proof.
  revert b. induction a as [|x a IH]; intros [|y b]; cbn; try easy.
  destruct (N.ltb_spec (code x) (code y)), (N.ltb_spec (code y) (code x)),
    (N.eqb_spec (code x) (code y)), (N.eqb_spec (code y) (code x));
    cbn; try easy; try lia.
  intros H1 H2. f_equal; [now apply code_inj | now apply IH].
Qed.

Lemma key_lt_irrefl (a : str * str) : key_lt a a = false.
Proof. unfold key_lt. rewrite eqs_refl. apply str_lt_irrefl. Qed.

Lemma key_lt_trans (a b c : str * str) :
  key_lt a b = true -> key_lt b c = true -> key_lt a c = true.
Proof.
  destruct a as [a1 a2], b as [b1 b2], c as [c1 c2]. unfold key_lt. cbn [fst snd].
  destruct (eqs a1 b1) eqn:E1, (eqs b1 c1) eqn:E2;
    try (apply eqs_eq in E1; subst a1); try (apply eqs_eq in E2; subst b1);
    rewrite ?E1, ?E2, ?eqs_refl.
  - apply str_lt_trans.
  - auto.
  - auto.
  - intros H1 H2. destruct (eqs a1 c1) eqn:E3.
    + apply eqs_eq in E3. subst c1.
      pose proof (str_lt_trans _ _ _ H1 H2) as X.
      rewrite str_lt_irrefl in X. discriminate X.
    + eapply str_lt_trans; eassumption.
Qed.

Lemma key_lt_total (a b : str * str) : key_lt a b = false -> key_lt b a = false -> a = b.
Proof.
  destruct a as [a1 a2], b as [b1 b2]. unfold key_lt. cbn [fst snd].
  destruct (eqs a1 b1) eqn:E1.
  - apply eqs_eq in E1. subst b1. rewrite eqs_refl. intros H1 H2.
    f_equal. now apply str_lt_total.
  - destruct (eqs b1 a1) eqn:E2; [apply eqs_eq in E2; subst; now rewrite eqs_refl in E1|].
    intros H1 H2. rewrite (str_lt_total _ _ H1 H2) in E1. now rewrite eqs_refl in E1.
Qed.

Lemma key_le_refl (a : str * str) : key_le a a.
Proof. apply key_lt_irrefl. Qed.

Lemma key_le_trans (a b c : str * str) : key_le a b -> key_le b c -> key_le a c.
Proof.
  unfold key_le. intros H1 H2.
  destruct (key_lt c a) eqn:H3; [|reflexivity].
  destruct (key_lt a b) eqn:H4.
  - now rewrite (key_lt_trans _ _ _ H3 H4) in H2.
  - rewrite (key_lt_total _ _ H4 H1) in H3. congruence.
Qed.

Lemma key_le_antisym (a b : str * str) : key_le a b -> key_le b a -> a = b.
Proof. unfold key_le. intros H1 H2. now apply key_lt_total. Qed.

Lemma key_lt_le (a b : str * str) : key_lt a b = true -> key_le a b.
Proof.
  unfold key_le. intros H. destruct (key_lt b a) eqn:H'; [|reflexivity].
  pose proof (key_lt_trans _ _ _ H H') as X.
  rewrite key_lt_irrefl in X. discriminate X.
Qed.

Lemma insert_sorted_perm x l : x :: l ≡ₚ insert_sorted x l.
Proof.
  induction l as [|y l IH]; cbn; [reflexivity|].
  destruct (key_lt _ _); [|reflexivity].
  rewrite <- IH. apply Permutation_swap.
Qed.

Lemma files_sorted_perm files : files ≡ₚ files_sorted files.
Proof.
  induction files as [|x files IH]; cbn; [reflexivity|].
  rewrite <- insert_sorted_perm. now constructor.
Qed.

Lemma insert_sorted_ascending x l : ascending l -> ascending (insert_sorted x l).
Proof.
  unfold ascending. induction 1 as [|y l Hs IH Hy]; cbn.
  - repeat constructor.
  - destruct (key_lt (sort_key y) (sort_key x)) eqn:E.
    + constructor; [assumption|].
      rewrite <- insert_sorted_perm. constructor; [now apply key_lt_le | assumption].
    + constructor; [now constructor|].
      constructor; [exact E|].
      eapply Forall_impl; [exact Hy|]. intros z Hz. cbn in Hz.
      eapply key_le_trans; [exact E | exact Hz].
Qed.

Lemma files_sorted_ascending files : ascending (files_sorted files).
Proof.
  induction files as [|x files IH]; cbn; [constructor | now apply insert_sorted_ascending].
Qed.

#[local] Instance key_le_antisymm : AntiSymm (=) key_le.
Proof. intros a b. apply key_le_antisym. Qed.

(** The keys of the sorted list do not depend on the order of the input. *)
Lemma files_sorted_keys files files' :
  files ≡ₚ files' ->
  map sort_key (files_sorted files) = map sort_key (files_sorted files').
Proof.
  intros H.
  change (sort_key <$> files_sorted files = sort_key <$> files_sorted files').
  apply (StronglySorted_unique key_le).
  - eapply StronglySorted_fmap; [|apply files_sorted_ascending]. auto.
  - eapply StronglySorted_fmap; [|apply files_sorted_ascending]. auto.
  - apply fmap_Permutation. now rewrite <- !files_sorted_perm.
Qed.

Lemma same_keys_eq (l1 l2 : list entry) :
  l1 ≡ₚ l2 -> NoDup (map sort_key l1) -> map sort_key l1 = map sort_key l2 -> l1 = l2.
Proof.
  revert l2. induction l1 as [|x l1 IH]; intros [|y l2] Hp Hn Hk; try discriminate Hk.
  - reflexivity.
  - assert (Hxy : sort_key x = sort_key y)
      by exact (f_equal (fun l => List.hd (sort_key x) l) Hk).
    assert (Hk' : map sort_key l1 = map sort_key l2)
      by exact (f_equal (fun l => List.tl l) Hk).
    cbn [map] in Hn. apply NoDup_cons in Hn as [Hx Hn].
    assert (y = x) as ->.
    { assert (Hy : y ∈ x :: l1) by (rewrite Hp; left).
      apply elem_of_cons in Hy as [Hy|Hy]; [assumption|].
      exfalso. apply Hx. rewrite Hxy.
      change (sort_key y ∈ sort_key <$> l1). now apply list_elem_of_fmap_2. }
    f_equal. apply IH; try assumption. now apply Permutation_cons_inv in Hp.
Qed.

(** The sort is stable: entries of equal key stay in their order. *)
Lemma insert_sorted_stable k x l :
  filter (fun e => sort_key e = k) (insert_sorted x l)
  = filter (fun e => sort_key e = k) (x :: l).
Proof.
  induction l as [|y l IH]; cbn [insert_sorted]; [reflexivity|].
  destruct (key_lt (sort_key y) (sort_key x)) eqn:E; [|reflexivity].
  rewrite (filter_cons _ y), IH, !filter_cons.
  destruct (decide (sort_key y = k)) as [Hy|], (decide (sort_key x = k)) as [Hx|];
    try reflexivity.
  rewrite Hy, Hx, key_lt_irrefl in E. discriminate E.
Qed.

Lemma files_sorted_stable k files :
  filter (fun e => sort_key e = k) (files_sorted files)
  = filter (fun e => sort_key e = k) files.
Proof.
  induction files as [|x files IH]; [reflexivity|]. cbn [files_sorted foldr].
  rewrite insert_sorted_stable, !filter_cons. fold (files_sorted files).
  now rewrite IH.
Qed.

(** ** The playlist builder *)

Section BuilderFacts.
Variable api : nat -> params -> response.

Lemma extinf_prefix t l g o : startswith (L "#EXTINF:-1 ") (extinf t l g o) = true.
Proof. reflexivity. Qed.

(** One iteration appends one record and counts it once. *)
Lemma build_entry_record b e :
  exists x,
    lines (build_entry api b e) = lines b ++ record_lines (x, url e)
    /\ startswith (L "#EXTINF:-1 ") x = true
    /\ matched (build_entry api b e) + unmatched (build_entry api b e)
       = matched b + unmatched b + 1.
Proof.
  unfold build_entry.
  destruct (parse_movie_name (filename e)) as [title year].
  destruct (tmdb_search api title year (tmdb b)) as [[i|] st];
    eexists; cbn [lines matched unmatched]; (split; [reflexivity|]);
    (split; [apply extinf_prefix | lia]).
Qed.

Lemma build_foldl l b :
  exists records,
    lines (foldl (build_entry api) b l) = lines b ++ flat_map record_lines records
    /\ map snd records = map url l
    /\ Forall (fun r => startswith (L "#EXTINF:-1 ") (fst r) = true) records
    /\ matched (foldl (build_entry api) b l) + unmatched (foldl (build_entry api) b l)
       = matched b + unmatched b + length l.
Proof.
  revert b. induction l as [|e l IH]; intros b; cbn [foldl].
  - exists []. cbn. rewrite app_nil_r. repeat split; [constructor | lia].
  - destruct (build_entry_record b e) as (x & Hx & Hp & Hc).
    destruct (IH (build_entry api b e)) as (records & Hl & Hu & Hf & Hn).
    exists ((x, url e) :: records). repeat split.
    + rewrite Hl, Hx, <- app_assoc. reflexivity.
    + cbn. now rewrite Hu.
    + now constructor.
    + rewrite Hn, Hc. cbn [length]. lia.
Qed.

(** The lines of the playlist: the header, then one record per entry, in
    sorted order. *)
Lemma build_loop_records files st :
  exists records,
    lines (build_loop api files st) = header :: flat_map record_lines records
    /\ map snd records = map url (files_sorted files)
    /\ Forall (fun r => startswith (L "#EXTINF:-1 ") (fst r) = true) records
    /\ matched (build_loop api files st) + unmatched (build_loop api files st)
       = length files.
Proof.
  unfold build_loop.
  destruct (build_foldl (files_sorted files)
              {| lines := [header]; matched := 0; unmatched := 0; tmdb := st |})
    as (records & Hl & Hu & Hf & Hn).
  exists records. repeat split; try assumption.
  rewrite Hn. cbn. now rewrite <- (files_sorted_perm files).
Qed.


(** C7, as the code has it: the records are emitted in the order of
    [files_sorted], which is ascending in the key (category lowercased,
    filename lowercased).  The sequence of keys is the same for every
    permutation of the input, and the sort is stable: entries of equal key
    stay in their input order.  So the order of the records is the same for
    every permutation of the input when no two entries have the same key. *)
Theorem files_sorted_order (files files' : list entry) (st : tmdb_state) :
  files ≡ₚ files' ->
  (exists records,
      lines (build_loop api files st) = header :: flat_map record_lines records
      /\ map snd records = map url (files_sorted files))
  /\ ascending (files_sorted files)
  /\ files_sorted files ≡ₚ files
  /\ map sort_key (files_sorted files) = map sort_key (files_sorted files')
  /\ (forall k, filter (fun e => sort_key e = k) (files_sorted files)
                = filter (fun e => sort_key e = k) files)
  /\ (NoDup (map sort_key files) -> files_sorted files = files_sorted files').
Proof.
  intros Hp. repeat split.
  - destruct (build_loop_records files st) as (records & Hl & Hu & _).
    now exists records.
  - apply files_sorted_ascending.
  - symmetry. apply files_sorted_perm.
  - now apply files_sorted_keys.
  - intros k. apply files_sorted_stable.
  - intros Hn. apply same_keys_eq.
    + now rewrite <- !files_sorted_perm.
    + change (NoDup (sort_key <$> files_sorted files)).
      rewrite <- (files_sorted_perm files). exact Hn.
    + now apply files_sorted_keys.
Qed.
End BuilderFacts.

Lemma files_sorted_order_witness :
  let files := [Entry (L "http://h/B/y.mkv") (L "y.mkv") (L "B");
                Entry (L "http://h/A/x.mkv") (L "x.mkv") (L "A")] in
  let files' := [Entry (L "http://h/A/x.mkv") (L "x.mkv") (L "A");
                 Entry (L "http://h/B/y.mkv") (L "y.mkv") (L "B")] in
  files ≡ₚ files'
  /\ files_sorted files = files'
  /\ (exists records,
         lines (build_loop Demo.api_empty files empty_state)
         = header :: flat_map record_lines records
         /\ map snd records = map url (files_sorted files))
  /\ ascending (files_sorted files)
  /\ files_sorted files ≡ₚ files
  /\ map sort_key (files_sorted files) = map sort_key (files_sorted files')
  /\ (forall k, filter (fun e => sort_key e = k) (files_sorted files)
                = filter (fun e => sort_key e = k) files)
  /\ (NoDup (map sort_key files) -> files_sorted files = files_sorted files').
Proof.
  intros files files'.
  assert (H : files ≡ₚ files') by apply Permutation_swap.
  split; [exact H | split; [reflexivity|]].
  exact (files_sorted_order Demo.api_empty files files' empty_state H).
Defined.

(** C7 fails on the code: two files of one name in two folders below the
    category depth have the same key, and come out in the order they came
    in. *)
Lemma files_sorted_depends_on_input_order :
  [Demo.x_in_c; Demo.x_in_d] ≡ₚ [Demo.x_in_d; Demo.x_in_c]
  /\ files_sorted [Demo.x_in_c; Demo.x_in_d] = [Demo.x_in_c; Demo.x_in_d]
  /\ files_sorted [Demo.x_in_d; Demo.x_in_c] = [Demo.x_in_d; Demo.x_in_c]
  /\ fst (build_m3u Demo.api_empty [Demo.x_in_c; Demo.x_in_d] empty_state)
     <> fst (build_m3u Demo.api_empty [Demo.x_in_d; Demo.x_in_c] empty_state).
Proof.
  split; [apply Permutation_swap|]. split; [reflexivity|]. split; [reflexivity|].
  vm_compute. discriminate.
Qed.

(** The playlist of one matched file. *)
Example build_m3u_text :
  fst (build_m3u Demo.api_yearless
                 [Entry (L "http://h/a.mkv") (L "a.mkv") (L "Movies")] empty_state)
  = L "#EXTM3U" ++ [newline; newline]
    ++ L "#EXTINF:-1 tvg-name=" ++ [dquote] ++ L "The Matrix (1999)" ++ [dquote]
    ++ L " tvg-logo=" ++ [dquote] ++ L "https://image.tmdb.org/t/p/w500/p.jpg" ++ [dquote]
    ++ L " group-title=" ++ [dquote] ++ L "Movies" ++ [dquote]
    ++ L " tvg-plot=" ++ [dquote] ++ L "A hacker learns the truth." ++ [dquote]
    ++ L ",The Matrix (1999)" ++ [newline]
    ++ L "http://h/a.mkv" ++ [newline].
Proof. vm_compute. reflexivity. Qed.

(** ** The main block *)

Section MainFacts.
Variable BASE_URL : str.
Variable fetch : nat -> str -> option (list str).
Variable urljoin : str -> str -> str.
Variable unquote : str -> str.
Variable api : nat -> params -> response.

(** C8: when the crawl returns, the run ends.  With no file found the exit
    status is not zero and nothing is written; with at least one file the
    playlist text is written and the exit status is zero. *)
Theorem main_exit (fuel : nat) (files : list entry) (t : nat) :
  crawl BASE_URL fetch urljoin unquote fuel BASE_URL 0 [] 0 = Some (files, t) ->
  exists o,
    main BASE_URL fetch urljoin unquote api fuel = Some o
    /\ (files = [] -> exit_status o <> 0%Z /\ written o = None)
    /\ (files <> [] ->
        exit_status o = 0%Z
        /\ written o = Some (fst (build_m3u api files empty_state))).
Proof.
  intros H. unfold main. rewrite H. destruct files as [|e files].
  - eexists. split; [reflexivity|]. split; [|easy]. intros _. now split.
  - destruct (build_m3u api (e :: files) empty_state) as [m3u st] eqn:E.
    eexists. split; [reflexivity|]. split; [easy|]. intros _. now split.
Qed.
End MainFacts.

Lemma main_exit_witness :
  crawl Demo.BASE_URL Demo.fetch Demo.urljoin Demo.unquote 5 Demo.BASE_URL 0 [] 0
  = Some (Demo.found, 4)
  /\ exists o,
       main Demo.BASE_URL Demo.fetch Demo.urljoin Demo.unquote Demo.api_yearless 5 = Some o
       /\ (Demo.found = [] -> exit_status o <> 0%Z /\ written o = None)
       /\ (Demo.found <> [] ->
           exit_status o = 0%Z
           /\ written o = Some (fst (build_m3u Demo.api_yearless Demo.found empty_state))).
Proof.
  assert (H : crawl Demo.BASE_URL Demo.fetch Demo.urljoin Demo.unquote 5 Demo.BASE_URL 0 [] 0
              = Some (Demo.found, 4)) by (vm_compute; reflexivity).
  split; [exact H|].
  exact (main_exit Demo.BASE_URL Demo.fetch Demo.urljoin Demo.unquote Demo.api_yearless
                   5 Demo.found 4 H).
Defined.

(** With no page to list, no file is found: the run fails and writes
    nothing. *)
Example main_no_files :
  main Demo.BASE_URL (fun _ _ => None) Demo.urljoin Demo.unquote Demo.api_empty 1
  = Some {| exit_status := 1; written := None |}.
Proof. reflexivity. Qed.

(** * Further properties *)

(** ** Substitution of a character class *)

Lemma match_at_class cs prev c (s : str) ma :
  match_at false (Chr (OneOf cs)) prev (c :: s) ma = if mem c cs then Some s else None.
Proof.
  unfold match_at. cbn [run item_match]. destruct (mem c cs); [|reflexivity].
  cbn [length]. destruct (Nat.eqb_spec (length s) (S (length s))) as [E|_]; [lia|].
  now rewrite andb_false_r.
Qed.

(** What [re.search] with a class finds, against the replacement of every
    member of the class by [repl]. *)
Lemma search_class cs repl prev (s : str) ma :
  match search_from false (Chr (OneOf cs)) prev s ma with
  | Some (pre, m, post) =>
      flat_map (fun c => if mem c cs then repl else [c]) s
      = pre ++ repl ++ flat_map (fun c => if mem c cs then repl else [c]) post
      /\ length post < length s /\ m <> []
  | None => flat_map (fun c => if mem c cs then repl else [c]) s = s
  end.
Proof.
  revert prev ma. induction s as [|c s IH]; intros prev ma.
  - reflexivity.
  - cbn [search_from]. rewrite match_at_class. destruct (mem c cs) eqn:E.
    + cbn [flat_map length]. rewrite E. repeat split; [lia|].
      replace (S (length s) - length s) with 1 by lia. discriminate.
    + specialize (IH (Some c) false).
      destruct (search_from false (Chr (OneOf cs)) (Some c) s false)
        as [[[pre m] post]|]; cbn [flat_map length]; rewrite E.
      * destruct IH as (H & Hl & Hm). rewrite H. repeat split; [lia | assumption].
      * cbn. now rewrite IH.
Qed.

Lemma sub_loop_class fuel cs repl prev (s : str) ma :
  length s < fuel ->
  sub_loop fuel false (Chr (OneOf cs)) repl prev s ma
  = flat_map (fun c => if mem c cs then repl else [c]) s.
Proof.
  revert prev s ma. induction fuel as [|fuel IH]; intros prev s ma Hf; [lia|].
  cbn [sub_loop]. pose proof (search_class cs repl prev s ma) as S.
  destruct (search_from false (Chr (OneOf cs)) prev s ma) as [[[pre m] post]|].
  - destruct S as (H & Hl & _). rewrite H, IH by lia. reflexivity.
  - now rewrite S.
Qed.

Lemma sub_class cs repl (s : str) :
  sub false (Chr (OneOf cs)) repl s
  = flat_map (fun c => if mem c cs then repl else [c]) s.
Proof. unfold sub. apply sub_loop_class. lia. Qed.

(** ** Stripping *)

Lemma lstrip_by_suffix p (s : str) : exists u, s = u ++ lstrip_by p s.
Proof.
  induction s as [|c s [u IH]]; cbn; [now exists []|].
  destruct (p c); [|now exists []]. exists (c :: u). cbn. now rewrite <- IH.
Qed.

Lemma lstrip_by_head_kept p (s : str) c : head (lstrip_by p s) = Some c -> p c = false.
Proof.
  induction s as [|x s IH]; cbn; [discriminate|].
  destruct (p x) eqn:E; [assumption|]. cbn. now intros [= <-].
Qed.

Lemma last_rev_head {A} (l : list A) : last (rev l) = head l.
Proof. destruct l as [|x l]; [reflexivity|]. cbn. apply last_snoc. Qed.

Lemma rstrip_by_prefix p (s : str) : exists u, s = rstrip_by p s ++ u.
Proof.
  unfold rstrip_by. destruct (lstrip_by_suffix p (rev s)) as [u E].
  exists (rev u). rewrite <- rev_app_distr, <- E. now rewrite rev_involutive.
Qed.

Lemma rstrip_by_last_kept p (s : str) c : last (rstrip_by p s) = Some c -> p c = false.
Proof. unfold rstrip_by. rewrite last_rev_head. apply lstrip_by_head_kept. Qed.

Lemma strip_ends (s : str) :
  (forall c, head (strip s) = Some c -> isspace c = false)
  /\ (forall c, last (strip s) = Some c -> isspace c = false).
Proof.
  unfold strip. split; intros c H.
  - destruct (rstrip_by_prefix isspace (lstrip_by isspace s)) as [u E].
    apply (lstrip_by_head_kept isspace s). rewrite E.
    destruct (rstrip_by isspace (lstrip_by isspace s)); [discriminate H | exact H].
  - now apply rstrip_by_last_kept in H.
Qed.

Lemma Forall_sublist {A} (P : A -> Prop) (l k : list A) :
  l `sublist_of` k -> Forall P k -> Forall P l.
Proof.
  induction 1 as [|x l k _ IH|x l k _ IH]; intros H; [constructor| |].
  - apply Forall_cons in H as [Hx H]. constructor; auto.
  - apply Forall_cons in H as [_ H]. auto.
Qed.

(** ** The filename parser, further *)

Lemma stripped_name_eq (filename : str) :
  stripped_name filename
  = map (fun c => if mem c (L "._") then " "%char else c) (Pathlib.stem filename).
Proof.
  unfold stripped_name, re_dots. rewrite sub_class.
  induction (Pathlib.stem filename) as [|c s IH]; [reflexivity|].
  cbn [flat_map map]. rewrite IH. now destruct (mem c (L "._")).
Qed.

(** X1: the returned title holds no bracket and neither begins nor ends with
    white space. *)
Theorem parse_title_trimmed (filename : str) :
  let title := fst (parse_movie_name filename) in
  Forall (fun c => mem c (L "[]()") = false) title
  /\ (forall c, head title = Some c -> isspace c = false)
  /\ (forall c, last title = Some c -> isspace c = false).
Proof.
  unfold parse_movie_name.
  destruct (provisional (stripped_name filename)) as [t year]. cbn [fst].
  unfold clean_title. split; [|apply strip_ends].
  eapply Forall_sublist; [apply strip_sublist|].
  unfold re_brackets. rewrite sub_class.
  induction (strip (strip_chars (L " -[]()") (sub true re_tags [] t))) as [|c s IH];
    cbn [flat_map]; [constructor|].
  destruct (mem c (L "[]()")) eqn:E; [exact IH | now constructor].
Qed.

(** X2: the name the year is searched in is the stem with every dot and every
    underscore replaced by a space, character by character: it has the length
    of the stem and holds neither a dot nor an underscore. *)
Theorem stripped_name_map (filename : str) :
  stripped_name filename
  = map (fun c => if mem c (L "._") then " "%char else c) (Pathlib.stem filename)
  /\ length (stripped_name filename) = length (Pathlib.stem filename)
  /\ Forall (fun c => mem c (L "._") = false) (stripped_name filename).
Proof.
  pose proof (stripped_name_eq filename) as E.
  split; [exact E|]. rewrite E. clear E. split; [apply length_map|].
  induction (Pathlib.stem filename) as [|c s IH]; cbn [map]; constructor; [|exact IH].
  destruct (mem c (L "._")) eqn:M; [reflexivity | exact M].
Qed.

(** X3: the year is absent exactly when the stripped name holds no standalone
    year token; the title is then the cleaned stripped name as a whole. *)
Theorem parse_year_absent (filename : str) :
  (snd (parse_movie_name filename) = None
   <-> forall i, year_token_at (stripped_name filename) i = false)
  /\ (snd (parse_movie_name filename) = None ->
      fst (parse_movie_name filename) = clean_title (stripped_name filename)).
Proof.
  unfold parse_movie_name, provisional, search.
  pose proof (search_from_year None (stripped_name filename)) as S.
  destruct (search_from false re_year None (stripped_name filename) false)
    as [[[pre m] post]|]; cbn [fst snd].
  - destruct S as (_ & _ & H & _). split; [|discriminate].
    split; [discriminate|]. intros Hall. unfold year_token_at in Hall.
    rewrite Hall in H. discriminate H.
  - split; [|reflexivity]. split; [|reflexivity]. intros _ i. apply S.
Qed.

(** X4: the title is made of characters of the stripped name, in their order:
    it is never longer than the stem of the file name. *)
Theorem parse_title_within_name (filename : str) :
  fst (parse_movie_name filename) `sublist_of` stripped_name filename
  /\ length (fst (parse_movie_name filename)) <= length (Pathlib.stem filename).
Proof.
  assert (H : fst (parse_movie_name filename) `sublist_of` stripped_name filename).
  { unfold parse_movie_name, provisional, search.
    destruct (search_from false re_year None (stripped_name filename) false)
      as [[[pre m] post]|] eqn:E; cbn [fst].
    - apply search_from_split in E. rewrite E.
      etransitivity; [apply clean_title_sublist|].
      etransitivity; [apply strip_sublist|]. now apply sublist_inserts_r.
    - apply clean_title_sublist. }
  split; [exact H|].
  apply sublist_length in H.
  now rewrite stripped_name_eq, length_map in H.
Qed.

(** ** The crawler, further *)

Section CrawlerMore.
Variable BASE_URL : str.
Variable fetch : nat -> str -> option (list str).
Variable urljoin : str -> str -> str.
Variable unquote : str -> str.

Local Abbreviation crawl' := (crawl BASE_URL fetch urljoin unquote).
Local Abbreviation crawl_links' := (crawl_links BASE_URL urljoin unquote).

(** X6: the entries of a page are those of its links, in page order: the loop
    over [links1 ++ links2] is the loop over [links1] followed by the loop over
    [links2], and what was found before stays in front. *)
Theorem crawl_links_in_order self (page : str) (depth : nat) (parts : list str)
        (links1 links2 : list str) (results : list entry) (t : nat) :
  crawl_links' self page depth parts (links1 ++ links2) results t
  = match crawl_links' self page depth parts links1 [] t with
    | Some (found1, t1) =>
        match crawl_links' self page depth parts links2 [] t1 with
        | Some (found2, t2) => Some (results ++ found1 ++ found2, t2)
        | None => None
        end
    | None => None
    end.
Proof.
  assert (Acc : forall links res t0,
             crawl_links' self page depth parts links res t0
             = match crawl_links' self page depth parts links [] t0 with
               | Some (found, t1) => Some (res ++ found, t1)
               | None => None
               end).
  { induction links as [|link links IH]; intros res t0; cbn [crawl_links].
    - now rewrite app_nil_r.
    - destruct (skipped_link _ _); [apply IH|].
      destruct (negb (startswith BASE_URL _)); [apply IH|].
      destruct (endswith _ _).
      + destruct (mem_str _ SKIP_FOLDERS); [apply IH|].
        destruct (self _ _ _ _) as [[found t1]|]; [|reflexivity].
        rewrite (IH (res ++ found)), (IH ([] ++ found)).
        destruct (crawl_links' self page depth parts links [] t1) as [[f t2]|];
          [|reflexivity].
        now rewrite <- app_assoc.
      + destruct (negb (mem_str _ VIDEO_EXTENSIONS)); [apply IH|].
        rewrite (IH (res ++ _)), (IH ([] ++ _)).
        destruct (crawl_links' self page depth parts links [] t0) as [[f t2]|];
          [|reflexivity].
        now rewrite <- app_assoc. }
  revert results t. induction links1 as [|link links1 IH]; intros results t.
  - cbn [app crawl_links]. rewrite Acc.
    now destruct (crawl_links' self page depth parts links2 [] t) as [[f t2]|].
  - cbn [app crawl_links].
    destruct (skipped_link _ _); [apply IH|].
    destruct (negb (startswith BASE_URL _)); [apply IH|].
    destruct (endswith _ _).
    + destruct (mem_str _ SKIP_FOLDERS); [apply IH|].
      destruct (self _ _ _ _) as [[found t1]|]; [|reflexivity].
      rewrite IH, (Acc links1 found).
      destruct (crawl_links' self page depth parts links1 [] t1) as [[f1 t2]|];
        [|reflexivity].
      destruct (crawl_links' self page depth parts links2 [] t2) as [[f2 t3]|];
        [|reflexivity].
      cbn [app]. now rewrite <- !app_assoc.
    + destruct (negb (mem_str _ VIDEO_EXTENSIONS)); [apply IH|].
      rewrite IH, (Acc links1 [_]).
      destruct (crawl_links' self page depth parts links1 [] t) as [[f1 t2]|];
        [|reflexivity].
      destruct (crawl_links' self page depth parts links2 [] t2) as [[f2 t3]|];
        [|reflexivity].
      cbn [app]. now rewrite <- !app_assoc.
Qed.

(** X7: a folder whose page cannot be fetched gives no entry and stops nothing:
    the loop goes on with the next link. *)
Theorem crawl_folder_unreachable (fuel : nat) (page : str) (depth : nat)
        (parts : list str) (link : str) (links : list str)
        (results : list entry) (t : nat) :
  folder_link BASE_URL urljoin unquote page link = true ->
  fetch t (urljoin page (strip link)) = None ->
  crawl_links' (crawl' (S fuel)) page depth parts (link :: links) results t
  = crawl_links' (crawl' (S fuel)) page depth parts links results (S t).
Proof.
  intros Hl Hf. cbn [crawl_links]. unfold folder_link in Hl.
  repeat (apply andb_true_iff in Hl as [Hl ?]).
  apply negb_true_iff in Hl. rewrite Hl.
  match goal with H : startswith _ _ = true |- _ => rewrite H end.
  match goal with H : endswith _ _ = true |- _ => rewrite H end.
  match goal with H : negb (mem_str _ _) = true |- _ =>
    apply negb_true_iff in H; rewrite H end.
  cbn [negb crawl]. rewrite Hf. now rewrite app_nil_r.
Qed.

(** X8: from the category depth on, the category is settled: every entry found
    below carries the category of the given path. *)
Theorem crawl_deep_category (fuel : nat) (page : str) (depth : nat)
        (parts : list str) (t : nat) (files : list entry) (t' : nat) :
  MAX_CATEGORY_DEPTH <= depth ->
  crawl' fuel page depth parts t = Some (files, t') ->
  Forall (fun e => category e = category_of parts) files.
Proof.
  intros Hd.
  apply (crawl_inv BASE_URL fetch urljoin unquote
                   (fun d ps => MAX_CATEGORY_DEPTH <= d /\ ps = parts)).
  - intros d ps name [Hle ->] _. unfold new_parts.
    destruct (Nat.ltb_spec d MAX_CATEGORY_DEPTH); [lia|]. split; [lia | reflexivity].
  - intros d ps full_url name [_ ->] _ _. reflexivity.
  - now split.
Qed.
End CrawlerMore.

(** ** The metadata lookup, further *)

Lemma mem_replace_dquote (s : str) : mem dquote (replace_char dquote "'" s) = false.
Proof.
  unfold replace_char. induction s as [|c s IH]; [reflexivity|].
  cbn [map mem existsb]. fold (mem dquote (map (fun c => if eqc c dquote then "'"%char else c) s)).
  rewrite IH, orb_false_r. destruct (eqc c dquote) eqn:E; [reflexivity|].
  destruct (eqc dquote c) eqn:E'; [|reflexivity].
  apply eqc_eq in E'. subst c. now rewrite eqc_refl in E.
Qed.

Lemma image_url_is_ok (path : option str) : image_url_ok (image_url path) = true.
Proof.
  unfold image_url_ok, image_url. destruct path as [p|]; [|reflexivity].
  destruct (truthy p); [|reflexivity].
  apply orb_true_iff. right. apply startswith_prefix. now exists p.
Qed.

Lemma make_info_ok title year m : info_ok (make_info title year m) = true.
Proof.
  unfold info_ok, make_info. cbn [i_overview i_poster_url i_backdrop_url].
  now rewrite mem_replace_dquote, !image_url_is_ok.
Qed.

Section TmdbMore.
Variable api : nat -> params -> response.

Local Abbreviation tmdb_search' := (tmdb_search api).
Local Abbreviation attempts' := (attempts api).
Local Abbreviation body' := (tmdb_search_body api).

(** X9: the retry loop stops at the first answer: the requests before it failed,
    and nothing is sent after it.  With no answer in [n] requests the loop
    gives up after exactly [n]. *)
Theorem attempts_first_answer (n : nat) (p : params) (st : tmdb_state) :
  match fst (attempts' n p st) with
  | Some rs =>
      exists k, k < n
        /\ api (length (requests st) + k) p = Results rs
        /\ (forall j, j < k -> api (length (requests st) + j) p = Failed)
        /\ requests (snd (attempts' n p st)) = requests st ++ replicate (S k) p
  | None =>
      (forall j, j < n -> api (length (requests st) + j) p = Failed)
      /\ requests (snd (attempts' n p st)) = requests st ++ replicate n p
  end.
Proof.
  revert st. induction n as [|n IH]; intros st; cbn [attempts].
  - cbn. split; [lia | now rewrite app_nil_r].
  - unfold send. destruct (api (length (requests st)) p) as [|rs] eqn:E.
    + specialize (IH {| cache := cache st; requests := requests st ++ [p] |}).
      cbn [requests] in IH. rewrite length_app in IH. cbn [length] in IH.
      destruct (attempts' n p _) as [[rs|] st']; cbn [fst snd] in *.
      * destruct IH as (k & Hk & Ha & Hf & Hr). exists (S k).
        repeat split; [lia | | |].
        -- now replace (length (requests st) + S k)
             with (length (requests st) + 1 + k) by lia.
        -- intros [|j] Hj; [now rewrite Nat.add_0_r|].
           replace (length (requests st) + S j)
             with (length (requests st) + 1 + j) by lia.
           apply Hf. lia.
        -- rewrite Hr, <- app_assoc. reflexivity.
      * destruct IH as (Hf & Hr). split.
        -- intros [|j] Hj; [now rewrite Nat.add_0_r|].
           replace (length (requests st) + S j)
             with (length (requests st) + 1 + j) by lia.
           apply Hf. lia.
        -- rewrite Hr, <- app_assoc. reflexivity.
    + cbn [fst snd requests]. exists 0. repeat split; [lia | | lia].
      now rewrite Nat.add_0_r.
Qed.

Lemma body_extends self n title year st :
  (forall st0, extends n title None st0 (snd (self title None st0))) ->
  extends (3 + n) title year st (snd (body' self title year st)).
Proof.
  intros Hself. unfold tmdb_search_body.
  destruct (cache st !! cache_key title year) as [v|] eqn:Hc; cbn [snd].
  { split; [|auto]. exists []. rewrite app_nil_r. repeat split; [cbn; lia | constructor]. }
  destruct (attempts_requests api 3 (search_params title year) st)
    as (k & Hk & _ & Hr & Hca).
  assert (Hp : request_of title year (search_params title year)).
  { split; [reflexivity|]. cbn. destruct (truthy_opt year); auto. }
  assert (Hst : forall key v0, extends (3 + n) title year st
                  (store key v0 (snd (attempts' 3 (search_params title year) st)))
                \/ key <> cache_key title year).
  { intros key v0. destruct (decide (key = cache_key title year)) as [->|]; [left|now right].
    split.
    - exists (replicate k (search_params title year)). cbn [store requests].
      repeat split; [exact Hr | rewrite length_replicate; lia |].
      now apply Forall_replicate.
    - intros k0 v Hk0. cbn [store cache]. rewrite Hca.
      rewrite lookup_insert_ne; [exact Hk0 | congruence]. }
  destruct (attempts' 3 (search_params title year) st) as [[[|m rs]|] st'] eqn:Ha;
    cbn [snd] in *.
  - destruct (truthy_opt year).
    + destruct (Hself st') as ((new & Hn & Hl & Hf) & Hcache). split.
      * exists (replicate k (search_params title year) ++ new).
        rewrite Hn, Hr, <- app_assoc. repeat split.
        -- rewrite length_app, length_replicate. lia.
        -- apply Forall_app. split; [now apply Forall_replicate|].
           eapply Forall_impl; [exact Hf|]. intros p [Hq [Hy|Hy]]; split; auto.
      * intros k0 v Hk0. apply Hcache. now rewrite Hca.
    + cbn [snd]. destruct (Hst (cache_key title year) None) as [H|H]; [exact H | easy].
  - cbn [snd]. destruct (Hst (cache_key title year) (Some (make_info title year m)))
      as [H|H]; [exact H | easy].
  - cbn [snd]. destruct (Hst (cache_key title year) None) as [H|H]; [exact H | easy].
Qed.

(** X10: a call never drops or changes a cache entry, and only appends to the
    requests sent: at most six, all with the title as query and with the year
    or nothing as filter. *)
Theorem tmdb_search_appends (title : str) (year : option str) (st : tmdb_state) :
  (exists new,
      requests (snd (tmdb_search' title year st)) = requests st ++ new
      /\ length new <= 6
      /\ Forall (fun p => query p = title
                          /\ (primary_release_year p = None
                              \/ primary_release_year p = year)) new)
  /\ (forall k v, cache st !! k = Some v ->
                  cache (snd (tmdb_search' title year st)) !! k = Some v).
Proof.
  change (extends 6 title year st (snd (tmdb_search' title year st))).
  unfold tmdb_search. apply (body_extends _ 3). intros st0.
  apply (body_extends _ 0). intros st1. cbn [snd]. split; [|auto].
  exists []. rewrite app_nil_r. repeat split; [cbn; lia | constructor].
Qed.

Lemma tmdb_search_extends title year st :
  extends 6 title year st (snd (tmdb_search' title year st)).
Proof.
  unfold tmdb_search. apply (body_extends _ 3). intros st0.
  apply (body_extends _ 0). intros st1. cbn [snd]. split; [|auto].
  exists []. rewrite app_nil_r. repeat split; [cbn; lia | constructor].
Qed.

Lemma body_None_stored self title st :
  cache (snd (body' self title None st)) !! cache_key title None
  = Some (fst (body' self title None st)).
Proof.
  unfold tmdb_search_body. cbn [truthy_opt].
  destruct (cache st !! cache_key title None) as [v|] eqn:Hc; [exact Hc|].
  destruct (attempts' 3 _ st) as [[[|m rs]|] st']; cbn [fst snd store cache];
    apply lookup_insert_eq.
Qed.

Lemma tmdb_search_stored title year st :
  cache (snd (tmdb_search' title year st)) !! cache_key title year
  = Some (fst (tmdb_search' title year st))
  \/ cache (snd (tmdb_search' title year st)) !! cache_key title None
     = Some (fst (tmdb_search' title year st)).
Proof.
  rewrite tmdb_search_unfold. unfold tmdb_search_body.
  destruct (cache st !! cache_key title year) as [v|] eqn:Hc; [now left|].
  destruct (attempts' 3 _ st) as [[[|m rs]|] st'];
    try (left; cbn [fst snd store cache]; apply lookup_insert_eq).
  destruct (truthy_opt year).
  - right. rewrite tmdb_search_unfold. apply body_None_stored.
  - left. cbn [fst snd store cache]. apply lookup_insert_eq.
Qed.

(** X11: the outcome of a call is always left in the cache: under the key of
    [(title, year)], or under the key of the title without a year, and under
    the latter when the call ends through the year-less retry. *)
Theorem tmdb_search_outcome_cached (title : str) (year : option str) (st : tmdb_state) :
  let r := tmdb_search' title year st in
  (cache (snd r) !! cache_key title year = Some (fst r)
   \/ cache (snd r) !! cache_key title None = Some (fst r))
  /\ (takes_fallback api title year st = true ->
      cache (snd r) !! cache_key title None = Some (fst r)).
Proof.
  split; [apply tmdb_search_stored|].
  unfold takes_fallback. rewrite tmdb_search_unfold. unfold tmdb_search_body.
  destruct (cache st !! cache_key title year) as [v|]; [discriminate|].
  destruct (attempts' 3 _ st) as [[[|m rs]|] st']; cbn [fst];
    rewrite ?andb_false_r; try discriminate.
  destruct (truthy_opt year); [|discriminate]. intros _.
  rewrite tmdb_search_unfold. apply body_None_stored.
Qed.

(** X12: a repeated call sends at most three requests: the year-less search is
    never made twice. *)
Theorem tmdb_search_repeat (title : str) (year : option str) (st : tmdb_state) :
  let st1 := snd (tmdb_search' title year st) in
  length (requests (snd (tmdb_search' title year st1))) <= length (requests st1) + 3.
Proof.
  intros st1.
  destruct (tmdb_search_stored title year st) as [H|H]; fold st1 in H.
  - rewrite (tmdb_search_hit api _ _ _ _ H). cbn [snd]. lia.
  - rewrite tmdb_search_unfold. unfold tmdb_search_body.
    destruct (cache st1 !! cache_key title year) as [v|]; [cbn [snd]; lia|].
    pose proof (attempts_length api 3 (search_params title year) st1) as Hl.
    pose proof (attempts_cache api 3 (search_params title year) st1) as Hc.
    destruct (attempts' 3 _ st1) as [[[|m rs]|] st2]; cbn [snd] in *;
      try (cbn [store requests]; exact Hl).
    destruct (truthy_opt year); [|cbn [snd store requests]; exact Hl].
    rewrite <- Hc in H. rewrite (tmdb_search_hit api _ _ _ _ H). exact Hl.
Qed.

(** X13: when the service fails three times in a row, the call gives no-match,
    stores it under its key, and has sent exactly three requests. *)
Theorem tmdb_search_service_down (title : str) (year : option str) (st : tmdb_state) :
  cache st !! cache_key title year = None ->
  (forall j, j < 3 -> api (length (requests st) + j) (search_params title year) = Failed) ->
  tmdb_search' title year st
  = (None, {| cache := <[cache_key title year := None]> (cache st);
              requests := requests st ++ replicate 3 (search_params title year) |}).
Proof.
  intros Hc Hf. rewrite tmdb_search_unfold. unfold tmdb_search_body. rewrite Hc.
  pose proof (attempts_first_answer 3 (search_params title year) st) as Ha.
  pose proof (attempts_cache api 3 (search_params title year) st) as Hca.
  destruct (attempts' 3 _ st) as [[rs|] st']; cbn [fst snd] in *.
  - destruct Ha as (k & Hk & Hr & _). rewrite (Hf k Hk) in Hr. discriminate Hr.
  - destruct Ha as (_ & Hr). unfold store. now rewrite Hca, Hr.
Qed.

Lemma body_info_ok self title year st :
  (forall st0, cache_ok st0 ->
               cache_ok (snd (self title None st0))
               /\ forall i, fst (self title None st0) = Some i -> info_ok i = true) ->
  cache_ok st ->
  cache_ok (snd (body' self title year st))
  /\ forall i, fst (body' self title year st) = Some i -> info_ok i = true.
Proof.
  intros Hself Hok. unfold tmdb_search_body.
  destruct (cache st !! cache_key title year) as [v|] eqn:Hc; cbn [fst snd].
  { split; [assumption|]. intros i ->. exact (Hok _ _ Hc). }
  pose proof (attempts_cache api 3 (search_params title year) st) as Hca.
  assert (Hst : forall v, (forall i, v = Some i -> info_ok i = true) ->
                  cache_ok (store (cache_key title year) v
                                  (snd (attempts' 3 (search_params title year) st)))).
  { intros v Hv k i. cbn [store cache]. rewrite Hca.
    destruct (decide (cache_key title year = k)) as [->|Hne].
    - rewrite lookup_insert_eq. intros [= ->]. now apply Hv.
    - rewrite lookup_insert_ne by assumption. apply Hok. }
  destruct (attempts' 3 (search_params title year) st) as [[[|m rs]|] st'];
    cbn [fst snd] in *.
  - destruct (truthy_opt year).
    + apply Hself. intros k i. rewrite Hca. apply Hok.
    + cbn [fst snd]. split; [apply Hst|]; discriminate.
  - split; [apply Hst|]; intros i [= <-]; apply make_info_ok.
  - split; [apply Hst|]; discriminate.
Qed.

(** X14: records that are safe to print stay so: when every stored record has an
    overview without a double quote and image URLs that are empty or under
    the image base, so has the record returned, and so has every record
    stored afterwards. *)
Theorem tmdb_search_info_ok (title : str) (year : option str) (st : tmdb_state) :
  cache_ok st ->
  cache_ok (snd (tmdb_search' title year st))
  /\ forall i, fst (tmdb_search' title year st) = Some i -> info_ok i = true.
Proof.
  unfold tmdb_search. apply body_info_ok. intros st0. apply body_info_ok.
  intros st1 H1. cbn [fst snd]. split; [assumption | discriminate].
Qed.
End TmdbMore.

(** ** The playlist builder, further *)

Lemma insert_sorted_least x l :
  Forall (fun y => key_le (sort_key x) (sort_key y)) l ->
  insert_sorted x l = x :: l.
Proof.
  destruct l as [|y l]; [reflexivity|]. intros H. apply Forall_cons in H as [H _].
  cbn [insert_sorted]. unfold key_le in H. now rewrite H.
Qed.

Lemma files_sorted_ascending_id files : ascending files -> files_sorted files = files.
Proof.
  unfold ascending. induction 1 as [|x l Hs IH Hx]; [reflexivity|].
  cbn [files_sorted foldr]. fold (files_sorted l). rewrite IH.
  now apply insert_sorted_least.
Qed.

Section BuilderMore.
Variable api : nat -> params -> response.

Lemma join_header (rest : list str) :
  startswith header (join [newline] (header :: rest)) = true.
Proof.
  apply startswith_prefix. destruct rest as [|x rest]; cbn [join].
  - exists []. now rewrite app_nil_r.
  - eexists. reflexivity.
Qed.

Lemma build_m3u_starts files st : startswith header (fst (build_m3u api files st)) = true.
Proof.
  unfold build_m3u. cbn [fst].
  destruct (build_loop_records api files st) as (records & -> & _).
  apply join_header.
Qed.

(** X15: the playlist text begins with the header line [#EXTM3U]; for an empty
    list it is the header alone, and no request is sent. *)
Theorem build_m3u_header (files : list entry) (st : tmdb_state) :
  startswith header (fst (build_m3u api files st)) = true
  /\ build_m3u api [] st = (header, st).
Proof.
  split; [apply build_m3u_starts | reflexivity].
Qed.

(** X16: a list that is already in ascending key order is left as it is, and its
    records come out in the order given. *)
Theorem files_sorted_fixpoint (files : list entry) (st : tmdb_state) :
  ascending files ->
  files_sorted files = files
  /\ exists records,
       lines (build_loop api files st) = header :: flat_map record_lines records
       /\ map snd records = map url files.
Proof.
  intros H. pose proof (files_sorted_ascending_id files H) as E.
  split; [exact E|].
  destruct (build_loop_records api files st) as (records & Hl & Hu & _).
  exists records. rewrite E in Hu. now split.
Qed.

(** X17: sorting the list beforehand changes nothing: the playlist built from the
    sorted list is the playlist built from the list. *)
Theorem build_m3u_presorted (files : list entry) (st : tmdb_state) :
  build_m3u api (files_sorted files) st = build_m3u api files st.
Proof.
  unfold build_m3u, build_loop.
  now rewrite (files_sorted_ascending_id _ (files_sorted_ascending files)).
Qed.

Lemma build_entry_tmdb b e :
  tmdb (build_entry api b e)
  = snd (tmdb_search api (fst (parse_movie_name (filename e)))
                     (snd (parse_movie_name (filename e))) (tmdb b)).
Proof.
  unfold build_entry. destruct (parse_movie_name (filename e)) as [title year].
  cbn [fst snd]. now destruct (tmdb_search api title year (tmdb b)) as [[i|] st].
Qed.

Lemma build_foldl_tmdb l b :
  length (requests (tmdb (foldl (build_entry api) b l)))
  <= length (requests (tmdb b)) + 6 * length l
  /\ requests (tmdb b) `prefix_of` requests (tmdb (foldl (build_entry api) b l))
  /\ (forall k v, cache (tmdb b) !! k = Some v ->
                  cache (tmdb (foldl (build_entry api) b l)) !! k = Some v)
  /\ (cache_ok (tmdb b) -> cache_ok (tmdb (foldl (build_entry api) b l))).
Proof.
  revert b. induction l as [|e l IH]; intros b; cbn [foldl length].
  - repeat split; auto; lia.
  - destruct (IH (build_entry api b e)) as (Hl & Hp & Hc & Hok).
    rewrite build_entry_tmdb in Hl, Hp, Hc, Hok.
    destruct (tmdb_search_extends api (fst (parse_movie_name (filename e)))
                (snd (parse_movie_name (filename e))) (tmdb b))
      as ((new & Hn & Hnl & _) & Hcache).
    rewrite Hn, length_app in Hl. repeat split.
    + lia.
    + etransitivity; [|exact Hp]. rewrite Hn. now apply prefix_app_r.
    + intros k v Hk. now apply Hc, Hcache.
    + intros H. apply Hok. now apply tmdb_search_info_ok.
Qed.

(** X18: building the playlist sends at most six requests per entry, only appends
    to the requests sent, keeps every cache entry, and keeps the stored
    records safe to print. *)
Theorem build_m3u_requests (files : list entry) (st : tmdb_state) :
  let st' := snd (build_m3u api files st) in
  length (requests st') <= length (requests st) + 6 * length files
  /\ requests st `prefix_of` requests st'
  /\ (forall k v, cache st !! k = Some v -> cache st' !! k = Some v)
  /\ (cache_ok st -> cache_ok st').
Proof.
  unfold build_m3u, build_loop. cbn [snd].
  destruct (build_foldl_tmdb (files_sorted files)
              {| lines := [header]; matched := 0; unmatched := 0; tmdb := st |})
    as (Hl & Hp & Hc & Hok).
  cbn [tmdb] in *.
  rewrite <- (Permutation_length (files_sorted_perm files)) in Hl. auto.
Qed.
End BuilderMore.

(** ** The main block, further *)

Section MainMore.
Variable BASE_URL : str.
Variable fetch : nat -> str -> option (list str).
Variable urljoin : str -> str -> str.
Variable unquote : str -> str.
Variable api : nat -> params -> response.

Local Abbreviation main' := (main BASE_URL fetch urljoin unquote api).

(** X19: when the base page cannot be fetched the run fails: exit status 1 and
    nothing written. *)
Theorem main_unreachable (fuel : nat) :
  fetch 0 BASE_URL = None ->
  main' (S fuel) = Some {| exit_status := 1; written := None |}.
Proof. intros H. unfold main. cbn [crawl]. now rewrite H. Qed.

(** X20: no partial output: a run that ends either fails with status 1 and writes
    nothing, or succeeds with status 0 and writes a text that begins with the
    playlist header. *)
Theorem main_all_or_nothing (fuel : nat) (o : outcome) :
  main' fuel = Some o ->
  (exit_status o = 1%Z /\ written o = None)
  \/ (exit_status o = 0%Z
      /\ exists text, written o = Some text /\ startswith header text = true).
Proof.
  unfold main.
  destruct (crawl BASE_URL fetch urljoin unquote fuel BASE_URL 0 [] 0)
    as [[[|e files] t]|]; [| |discriminate].
  - intros [= <-]. now left.
  - pose proof (build_m3u_starts api (e :: files) empty_state) as H.
    destruct (build_m3u api (e :: files) empty_state) as [m3u st].
    intros [= <-]. right. split; [reflexivity|]. now exists m3u.
Qed.

End MainMore.

(** ** The further properties on the example server *)

Lemma crawl_folder_unreachable_witness :
  let self := crawl Demo.BASE_URL Demo.fetch_broken Demo.urljoin Demo.unquote 1 in
  folder_link Demo.BASE_URL Demo.urljoin Demo.unquote (L "http://h/") (L "Gone/") = true
  /\ Demo.fetch_broken 1 (Demo.urljoin (L "http://h/") (strip (L "Gone/"))) = None
  /\ crawl_links Demo.BASE_URL Demo.urljoin Demo.unquote self
                 (L "http://h/") 0 [] [L "Gone/"; L "a.mkv"] [] 1
     = crawl_links Demo.BASE_URL Demo.urljoin Demo.unquote self
                   (L "http://h/") 0 [] [L "a.mkv"] [] 2.
Proof.
  intros self.
  assert (H1 : folder_link Demo.BASE_URL Demo.urljoin Demo.unquote
                           (L "http://h/") (L "Gone/") = true)
    by (vm_compute; reflexivity).
  assert (H2 : Demo.fetch_broken 1 (Demo.urljoin (L "http://h/") (strip (L "Gone/")))
               = None) by (vm_compute; reflexivity).
  split; [exact H1 | split; [exact H2|]].
  exact (crawl_folder_unreachable Demo.BASE_URL Demo.fetch_broken Demo.urljoin
           Demo.unquote 0 (L "http://h/") 0 [] (L "Gone/") [L "a.mkv"] [] 1 H1 H2).
Defined.

Lemma crawl_deep_category_witness :
  MAX_CATEGORY_DEPTH <= 2
  /\ Demo.crawl 3 (L "http://h/Action/2020/") 2 [L "Action"; L "2020"] 2
     = Some ([Entry (L "http://h/Action/2020/HD/c.avi") (L "c.avi") (L "Action > 2020")], 4)
  /\ Forall (fun e => category e = category_of [L "Action"; L "2020"])
            [Entry (L "http://h/Action/2020/HD/c.avi") (L "c.avi") (L "Action > 2020")].
Proof.
  assert (H1 : MAX_CATEGORY_DEPTH <= 2) by (unfold MAX_CATEGORY_DEPTH; lia).
  assert (H2 : Demo.crawl 3 (L "http://h/Action/2020/") 2 [L "Action"; L "2020"] 2
               = Some ([Entry (L "http://h/Action/2020/HD/c.avi") (L "c.avi")
                              (L "Action > 2020")], 4))
    by (vm_compute; reflexivity).
  split; [exact H1 | split; [exact H2|]].
  exact (crawl_deep_category Demo.BASE_URL Demo.fetch Demo.urljoin Demo.unquote
           3 (L "http://h/Action/2020/") 2 [L "Action"; L "2020"] 2 _ 4 H1 H2).
Defined.

Lemma tmdb_search_service_down_witness :
  let title := L "The Matrix" in
  let year := Some (L "1999") in
  cache empty_state !! cache_key title year = None
  /\ (forall j, j < 3 ->
      Demo.api_down (length (requests empty_state) + j) (search_params title year) = Failed)
  /\ tmdb_search Demo.api_down title year empty_state
     = (None, {| cache := <[cache_key title year := None]> (cache empty_state);
                 requests := requests empty_state
                             ++ replicate 3 (search_params title year) |}).
Proof.
  intros title year.
  assert (H1 : cache empty_state !! cache_key title year = None) by reflexivity.
  assert (H2 : forall j, j < 3 ->
               Demo.api_down (length (requests empty_state) + j)
                             (search_params title year) = Failed)
    by (intros j _; reflexivity).
  split; [exact H1 | split; [exact H2|]].
  exact (tmdb_search_service_down Demo.api_down title year empty_state H1 H2).
Defined.

Lemma cache_ok_empty : cache_ok empty_state.
Proof. intros k i H. cbn in H. rewrite lookup_empty in H. discriminate H. Defined.

Lemma tmdb_search_info_ok_witness :
  cache_ok empty_state
  /\ cache_ok (snd (tmdb_search Demo.api_yearless (L "The Matrix") None empty_state))
  /\ forall i, fst (tmdb_search Demo.api_yearless (L "The Matrix") None empty_state) = Some i
               -> info_ok i = true.
Proof.
  split; [exact cache_ok_empty|].
  exact (tmdb_search_info_ok Demo.api_yearless (L "The Matrix") None empty_state
                             cache_ok_empty).
Defined.

Lemma files_sorted_fixpoint_witness :
  let files := [ Entry (L "http://h/Action/b.MP4") (L "b.MP4") (L "Action");
                 Entry (L "http://h/Action/2020/HD/c.avi") (L "c.avi") (L "Action > 2020");
                 Entry (L "http://h/a.mkv") (L "a.mkv") (L "Movies") ] in
  ascending files
  /\ files_sorted files = files
  /\ exists records,
       lines (build_loop Demo.api_empty files empty_state)
       = header :: flat_map record_lines records
       /\ map snd records = map url files.
Proof.
  intros files.
  assert (H : ascending files).
  { unfold ascending, files.
    repeat (constructor; try (vm_compute; reflexivity)). }
  split; [exact H|].
  exact (files_sorted_fixpoint Demo.api_empty files empty_state H).
Defined.

Lemma main_unreachable_witness :
  Demo.fetch_broken 0 (L "http://nowhere/") = None
  /\ main (L "http://nowhere/") Demo.fetch_broken Demo.urljoin Demo.unquote Demo.api_empty 1
     = Some {| exit_status := 1; written := None |}.
Proof.
  assert (H : Demo.fetch_broken 0 (L "http://nowhere/") = None) by reflexivity.
  split; [exact H|].
  exact (main_unreachable (L "http://nowhere/") Demo.fetch_broken Demo.urljoin
                          Demo.unquote Demo.api_empty 0 H).
Defined.

Lemma main_all_or_nothing_witness :
  let o := {| exit_status := 0;
              written := Some (fst (build_m3u Demo.api_yearless Demo.found empty_state)) |} in
  main Demo.BASE_URL Demo.fetch Demo.urljoin Demo.unquote Demo.api_yearless 5 = Some o
  /\ ((exit_status o = 1%Z /\ written o = None)
      \/ (exit_status o = 0%Z
          /\ exists text, written o = Some text /\ startswith header text = true)).
Proof.
  intros o.
  assert (H : main Demo.BASE_URL Demo.fetch Demo.urljoin Demo.unquote Demo.api_yearless 5
              = Some o) by (vm_compute; reflexivity).
  split; [exact H|].
  exact (main_all_or_nothing Demo.BASE_URL Demo.fetch Demo.urljoin Demo.unquote
                             Demo.api_yearless 5 o H).
Defined.
